(** * vault-sidekick: the resource descriptor validator (vault_resource.go)

    A shallow embedding of [VaultResource], [GetFilename], [IsValid],
    [isValidResource] and [isValidOptions], followed by the properties of
    the validator.

    Conventions of the embedding:
    - a Go [map[string]string] is a [gmap string string]; [m[k]] on a missing
      key yields the zero value, the two-result form [v, found := m[k]] is
      the lookup [m !! k];
    - [for opt, val := range r.options] visits every entry of the map once, in
      an order the runtime picks: the loop takes the visiting order as a list
      of entries, and [iteration_of] says which lists are visiting orders;
    - a method with a pointer receiver that returns [error] becomes a function
      to the pair of the receiver after the call and [None] (for [nil]) or
      [Some e];
    - [time.ParseDuration], [strconv.ParseBool] and [fileExists] live outside
      vault_resource.go and are variables of the section: [Some v] stands for
      the result [(v, nil)], [None] for a non-nil error. *)

From Stdlib Require Import Ascii.
From stdpp Require Import gmap strings list fin_maps.

Open Scope string_scope.

(** ** Constants *)

(** option to set the filename of the resource *)
Definition OptionFilename : string := "fn".
(** option to set the output format *)
Definition OptionFormat : string := "fmt".
(** used by the PKI resource *)
Definition OptionCommonName : string := "cn".
(** the full path to a template *)
Definition OptionTemplatePath : string := "tpl".
(** renew the resource *)
Definition OptionRenewal : string := "rn".
(** revoke an old lease when retrieving a new one *)
Definition OptionRevoke : string := "rv".
(** override the lease of the resource *)
Definition OptionUpdate : string := "up".

(** [time.Duration] is an [int64] count of nanoseconds. *)
Definition Duration : Type := Z.

(** The pattern ["^(yaml|json|ini|txt|cert|csv)$"]: one group of literal
    alternatives between the two anchors.  It is kept as the list of its
    alternatives. *)
Definition resourceFormatRegex : list string :=
  ["yaml"; "json"; "ini"; "txt"; "cert"; "csv"].

(** [re.MatchString s] for such a pattern.  No flag is set, so [^] and [$]
    match at the two ends of the text only: the whole text has to be one of
    the alternatives. *)
Definition MatchString (re : list string) (s : string) : bool :=
  existsb (String.eqb s) re.
Arguments MatchString : simpl never.

(** a map of valid resource to retrieve from vault *)
Definition validResources : gmap string bool :=
  list_to_map
    [("pki", true); ("aws", true); ("secret", true); ("mysql", true);
     ("tpl", true); ("postgres", true); ("cassandra", true)].

(** ** The descriptor *)

Record VaultResource : Type := mkVaultResource {
  (* the namespace of the resource *)
  resource : string;
  (* the name of the resource *)
  name : string;
  (* the format of the resource *)
  format : string;
  (* whether the resource should be renewed? *)
  renewable : bool;
  (* whether the resource should be revoked? *)
  revoked : bool;
  (* the lease duration *)
  update : Duration;
  (* additional options to the resource *)
  options : gmap string string
}.

(** Fields the literal leaves out take Go's zero value. *)
Definition defaultVaultResource : VaultResource :=
  {| resource := ""; name := ""; format := "yaml"; renewable := false;
     revoked := false; update := 0%Z; options := ∅ |}.

(** Assignments to one field of [*r]. *)
Definition set_format (v : string) (r : VaultResource) : VaultResource :=
  mkVaultResource (resource r) (name r) v (renewable r) (revoked r) (update r)
    (options r).
Definition set_renewable (b : bool) (r : VaultResource) : VaultResource :=
  mkVaultResource (resource r) (name r) (format r) b (revoked r) (update r)
    (options r).
Definition set_revoked (b : bool) (r : VaultResource) : VaultResource :=
  mkVaultResource (resource r) (name r) (format r) (renewable r) b (update r)
    (options r).
Definition set_update (d : Duration) (r : VaultResource) : VaultResource :=
  mkVaultResource (resource r) (name r) (format r) (renewable r) (revoked r) d
    (options r).

(** [m[k]]: the value, or the empty string when the key is missing. *)
Definition index (m : gmap string string) (k : string) : string :=
  default "" (m !! k).

(** [String]: a string representation of the struct, ["%s/%s"]. *)
Definition String_ (r : VaultResource) : string :=
  resource r ++ "/" ++ name r.

(** [GetFilename]: by default the resource name and resource type, which the
    filename option overrides. *)
Definition GetFilename (r : VaultResource) : string :=
  match options r !! OptionFilename with
  | Some path => path
  | None => name r ++ "." ++ resource r
  end.

(** ** Errors

    Every [fmt.Errorf] of the file is one constructor; the [_Error]
    functions give the message it formats. *)

(** The errors of [isValidOptions]. *)
Inductive OptionError : Type :=
  | InvalidFormat (val : string)
  | InvalidDuration (val : string)
  | InvalidBoolean (opt val : string)
  | TemplateNotFound (val : string).

(** The errors of [isValidResource]. *)
Inductive ResourceError : Type :=
  | MissingRequiredOption (res opt : string).

(** The errors of [IsValid]: its own, and the two it wraps. *)
Inductive ValidateError : Type :=
  | UnsupportedResourceType (res : string)
  | InvalidOptions (err : OptionError)
  | InvalidResource (r : string) (err : ResourceError).

Definition OptionError_Error (e : OptionError) : string :=
  match e with
  | InvalidFormat val => "unsupported output format: " ++ val
  | InvalidDuration val =>
      "the update option: " ++ val ++ " is not value, should be a duration format"
  | InvalidBoolean opt val =>
      (if decide (opt = OptionRevoke) then "the revoke option: "
       else "the renewal option: ")
      ++ val ++ " is invalid, should be a boolean"
  | TemplateNotFound val => "the template file: " ++ val ++ " does not exist"
  end.

Definition ResourceError_Error (e : ResourceError) : string :=
  match e with
  | MissingRequiredOption res _ =>
      if decide (res = "pki")
      then "pki resource requires a common name specified"
      else "template resource requires a template path option"
  end.

Definition ValidateError_Error (e : ValidateError) : string :=
  match e with
  | UnsupportedResourceType res => "unsupported resource type: " ++ res
  | InvalidOptions err => "invalid resource options, " ++ OptionError_Error err
  | InvalidResource r err =>
      "invalid resource: " ++ r ++ ", " ++ ResourceError_Error err
  end.

(** The lists that [range m] may visit: every entry of [m] once, in any
    order. *)
Definition iteration_of (m : gmap string string)
    (order : list (string * string)) : Prop :=
  order ≡ₚ map_to_list m.

(** [isValidResource]: validate the resource meets the requirements. *)
Definition isValidResource (r : VaultResource) : option ResourceError :=
  if decide (resource r = "pki") then
    match options r !! OptionCommonName with
    | None => Some (MissingRequiredOption "pki" OptionCommonName)
    | Some _ => None
    end
  else if decide (resource r = "tpl") then
    match options r !! OptionTemplatePath with
    | None => Some (MissingRequiredOption "tpl" OptionTemplatePath)
    | Some _ => None
    end
  else None.

Section Validator.

(** [time.ParseDuration] *)
Variable ParseDuration : string -> option Duration.
(** [strconv.ParseBool] *)
Variable ParseBool : string -> option bool.
(** The boolean that [fileExists] returns; the call site drops the error
    that comes with it. *)
Variable fileExists : string -> bool.

(** The body of the loop of [isValidOptions], for the entry [opt], [val]:
    the [switch opt].  The case constants are pairwise different, so at
    most one branch applies. *)
Definition option_case (opt val : string) (r : VaultResource)
    : VaultResource * option OptionError :=
  if decide (opt = OptionFormat) then
    if MatchString resourceFormatRegex (index (options r) OptionFormat)
    then (set_format val r, None)
    else (r, Some (InvalidFormat (index (options r) OptionFormat)))
  else if decide (opt = OptionUpdate) then
    match ParseDuration val with
    | None => (r, Some (InvalidDuration val))
    | Some duration => (set_update duration r, None)
    end
  else if decide (opt = OptionRevoke) then
    match ParseBool val with
    | None => (r, Some (InvalidBoolean OptionRevoke val))
    | Some choice => (set_revoked choice r, None)
    end
  else if decide (opt = OptionRenewal) then
    match ParseBool val with
    | None => (r, Some (InvalidBoolean OptionRenewal val))
    | Some choice => (set_renewable choice r, None)
    end
  else if decide (opt = OptionFilename) then (r, None)
  else if decide (opt = OptionCommonName) then (r, None)
  else if decide (opt = OptionTemplatePath) then
    if fileExists val then (r, None)
    else (r, Some (TemplateNotFound val))
  else (r, None).

(** [isValidOptions]: iterates through the options, converts the options
    and so forth.  [order] is the order in which [range] hands out the
    entries; the first error ends the loop, with the assignments made so
    far left in place. *)
Fixpoint isValidOptions (order : list (string * string)) (r : VaultResource)
    : VaultResource * option OptionError :=
  match order with
  | [] => (r, None)
  | (opt, val) :: rest =>
      match option_case opt val r with
      | (r', None) => isValidOptions rest r'
      | (r', Some err) => (r', Some err)
      end
  end.

(** [IsValid]: checks to see if the resource is valid. *)
Definition IsValid (order : list (string * string)) (r : VaultResource)
    : VaultResource * option ValidateError :=
  (* step: check the resource type *)
  match validResources !! resource r with
  | None => (r, Some (UnsupportedResourceType (resource r)))
  | Some _ =>
      (* step: check the options *)
      match isValidOptions order r with
      | (r', Some err) => (r', Some (InvalidOptions err))
      | (r', None) =>
          (* step: check is have all the required options *)
          match isValidResource r' with
          | Some err => (r', Some (InvalidResource (String_ r') err))
          | None => (r', None)
          end
      end
  end.

(** An entry passes when its case of the loop body reports no error. *)
Definition option_ok (r : VaultResource) (e : string * string) : Prop :=
  (option_case e.1 e.2 r).2 = None.

(** The loop gets as far as the entry [opt], [val]: the entries that [order]
    visits before it all pass. *)
Definition reaches (order : list (string * string)) (r : VaultResource)
    (opt val : string) : Prop :=
  ∃ pre post,
    order = (pre ++ (opt, val) :: post)%list ∧ Forall (option_ok r) pre.

(** The descriptor a pass over all of [options r] without an error leaves
    behind, read off the map: a typed field whose key is present holds the
    parsed value, any other field is as it was. *)
Definition cached (r : VaultResource) : VaultResource :=
  mkVaultResource (resource r) (name r)
    (match options r !! OptionFormat with
     | Some val => val
     | None => format r
     end)
    (match options r !! OptionRenewal with
     | Some val => default (renewable r) (ParseBool val)
     | None => renewable r
     end)
    (match options r !! OptionRevoke with
     | Some val => default (revoked r) (ParseBool val)
     | None => revoked r
     end)
    (match options r !! OptionUpdate with
     | Some val => default (update r) (ParseDuration val)
     | None => update r
     end)
    (options r).

(** What the assignments of the loop have made of the descriptor [r0] once
    the entries with the keys [seen] have passed: the typed field of a key
    among [seen] holds the parsed value of that option, the other typed
    fields and everything else are as in [r0]. *)
Record cache_inv (r0 : VaultResource) (seen : list string)
    (r : VaultResource) : Prop := mk_cache_inv {
  inv_options : options r = options r0;
  inv_resource : resource r = resource r0;
  inv_name : name r = name r0;
  inv_format_seen :
    OptionFormat ∈ seen → options r0 !! OptionFormat = Some (format r);
  inv_format_unseen : OptionFormat ∉ seen → format r = format r0;
  inv_update_seen :
    OptionUpdate ∈ seen →
    ∃ val, options r0 !! OptionUpdate = Some val
           ∧ ParseDuration val = Some (update r);
  inv_update_unseen : OptionUpdate ∉ seen → update r = update r0;
  inv_revoked_seen :
    OptionRevoke ∈ seen →
    ∃ val, options r0 !! OptionRevoke = Some val
           ∧ ParseBool val = Some (revoked r);
  inv_revoked_unseen : OptionRevoke ∉ seen → revoked r = revoked r0;
  inv_renewable_seen :
    OptionRenewal ∈ seen →
    ∃ val, options r0 !! OptionRenewal = Some val
           ∧ ParseBool val = Some (renewable r);
  inv_renewable_unseen : OptionRenewal ∉ seen → renewable r = renewable r0
}.

End Validator.

(** ** A concrete environment for the examples *)

Module Sample.

(** [strconv.ParseBool] accepts 1, t, T, TRUE, true, True, 0, f, F, FALSE,
    false, False; any other value returns an error. *)
Definition ParseBool (str : string) : option bool :=
  if bool_decide (str ∈ ["1"; "t"; "T"; "TRUE"; "true"; "True"]) then Some true
  else if bool_decide (str ∈ ["0"; "f"; "F"; "FALSE"; "false"; "False"])
  then Some false
  else None.

Definition Nanosecond : Duration := 1%Z.
Definition Millisecond : Duration := (1000 * 1000 * Nanosecond)%Z.
Definition Second : Duration := (1000 * Millisecond)%Z.
Definition Minute : Duration := (60 * Second)%Z.
Definition Hour : Duration := (60 * Minute)%Z.

(** What [time.ParseDuration] returns on the strings of the examples.  Any
    other string is taken as one it rejects, which is what it does with
    ["abc"] and with the empty string. *)
Definition ParseDuration (s : string) : option Duration :=
  if decide (s = "2h") then Some (2 * Hour)%Z
  else if decide (s = "1h") then Some Hour
  else if decide (s = "1h30m") then Some (Hour + 30 * Minute)%Z
  else if decide (s = "45s") then Some (45 * Second)%Z
  else if decide (s = "500ms") then Some (500 * Millisecond)%Z
  else None.

(** A filesystem that holds one template. *)
Definition fileExists (filename : string) : bool :=
  bool_decide (filename = "/etc/vault/nginx.tpl").

Definition IsValid := IsValid ParseDuration ParseBool fileExists.
Definition isValidOptions := isValidOptions ParseDuration ParseBool fileExists.
Definition option_case := option_case ParseDuration ParseBool fileExists.

(** A descriptor as the parser hands it over: the defaults, then the
    resource type, the name and the raw options. *)
Definition descriptor (res nm : string) (opts : list (string * string))
    : VaultResource :=
  mkVaultResource res nm (format defaultVaultResource)
    (renewable defaultVaultResource) (revoked defaultVaultResource)
    (update defaultVaultResource) (list_to_map opts).

(** The descriptors of the examples. *)
Definition secret_json : VaultResource :=
  descriptor "secret" "db-pass" [("fmt", "json"); ("up", "2h")].
Definition secret_xml_abc : VaultResource :=
  descriptor "secret" "db-pass" [("fmt", "xml"); ("up", "abc")].
Definition secret_json_abc : VaultResource :=
  descriptor "secret" "db-pass" [("fmt", "json"); ("up", "abc")].
Definition secret_flags : VaultResource :=
  descriptor "secret" "db-pass" [("rn", "true"); ("rv", "T")].
Definition ssh_xml : VaultResource := descriptor "ssh" "key" [("fmt", "xml")].
Definition ssh_abc : VaultResource := descriptor "ssh" "key" [("up", "abc")].
Definition ssh_tpl : VaultResource :=
  descriptor "ssh" "key" [("tpl", "/tmp/missing.tpl")].
Definition pki_bare : VaultResource := descriptor "pki" "web" [].
Definition pki_json : VaultResource := descriptor "pki" "web" [("fmt", "json")].
Definition pki_empty_cn : VaultResource :=
  descriptor "pki" "web" [("cn", ""); ("fmt", "json")].
Definition tpl_found : VaultResource :=
  descriptor "tpl" "nginx" [("tpl", "/etc/vault/nginx.tpl")].
Definition tpl_missing_xml : VaultResource :=
  descriptor "tpl" "nginx" [("tpl", "/tmp/missing.tpl"); ("fmt", "xml")].
Definition secret_fn_empty : VaultResource :=
  descriptor "secret" "db-pass" [("fn", "")].
Definition ssh_fn_path : VaultResource :=
  descriptor "ssh" "key" [("fn", "../keys/id_rsa")].

End Sample.

(** ** Auxiliary notions for the further properties *)

(** Whether the character [c] occurs in [s]. *)
Fixpoint occurs (c : Ascii.ascii) (s : string) : bool :=
  match s with
  | EmptyString => false
  | String a s' => if decide (a = c) then true else occurs c s'
  end.

(** The descriptor [r] with the option table replaced, as when the parser
    fills in [r.options]. *)
Definition with_options (m : gmap string string) (r : VaultResource)
    : VaultResource :=
  mkVaultResource (resource r) (name r) (format r) (renewable r) (revoked r)
    (update r) m.

(** * Properties *)

Section Properties.

Variable ParseDuration : string -> option Duration.
Variable ParseBool : string -> option bool.
Variable fileExists : string -> bool.

Local Abbreviation option_case :=
  (option_case ParseDuration ParseBool fileExists).
Local Abbreviation isValidOptions :=
  (isValidOptions ParseDuration ParseBool fileExists).
Local Abbreviation IsValid := (IsValid ParseDuration ParseBool fileExists).
Local Abbreviation option_ok := (option_ok ParseDuration ParseBool fileExists).
Local Abbreviation reaches := (reaches ParseDuration ParseBool fileExists).
Local Abbreviation cached := (cached ParseDuration ParseBool).
Local Abbreviation cache_inv := (cache_inv ParseDuration ParseBool).

(** ** The loop body *)

(** Splits the goal along the [switch] of the loop body and the results of
    the calls inside it. *)
Ltac switch_cases :=
  unfold option_case in *;
  repeat case_decide; repeat case_match; simplify_eq/=.

(** The body never touches the option table, the resource type or the
    name. *)
Lemma option_case_frame opt val r :
  options (option_case opt val r).1 = options r
  ∧ resource (option_case opt val r).1 = resource r
  ∧ name (option_case opt val r).1 = name r.
Proof. switch_cases; done. Qed.

(** A case that reports an error has assigned nothing. *)
Lemma option_case_error opt val r r' err :
  option_case opt val r = (r', Some err) → r' = r.
Proof. intros H. switch_cases; done. Qed.

(** Whether a case reports an error, and which, is decided by the entry and
    the option table alone. *)
Lemma option_case_snd opt val r1 r2 :
  options r1 = options r2 →
  (option_case opt val r1).2 = (option_case opt val r2).2.
Proof. intros Heq. unfold option_case. rewrite Heq. switch_cases; done. Qed.

Lemma option_ok_options r1 r2 e :
  options r1 = options r2 → option_ok r1 e → option_ok r2 e.
Proof.
  unfold option_ok. intros Heq H.
  by rewrite <- (option_case_snd _ _ r1 r2 Heq).
Qed.

(** ** The loop *)

Lemma isValidOptions_frame order : ∀ r,
  options (isValidOptions order r).1 = options r
  ∧ resource (isValidOptions order r).1 = resource r
  ∧ name (isValidOptions order r).1 = name r.
Proof.
  induction order as [|[opt val] rest IH]; intros r; simpl; [done|].
  pose proof (option_case_frame opt val r) as (Ho & Hr & Hn).
  destruct (option_case opt val r) as [r1 [err|]]; simpl in *; [done|].
  destruct (IH r1) as (-> & -> & ->). done.
Qed.

(** Running the loop over [pre ++ post] is running it over [pre] and, unless
    that stopped with an error, going on over [post]. *)
Lemma isValidOptions_app pre post : ∀ r,
  isValidOptions (pre ++ post) r =
    match isValidOptions pre r with
    | (r', None) => isValidOptions post r'
    | (r', Some err) => (r', Some err)
    end.
Proof.
  induction pre as [|[opt val] pre IH]; intros r; simpl; [done|].
  destruct (option_case opt val r) as [r1 [err|]]; [done|]. apply IH.
Qed.

(** The loop ends without an error exactly when every entry passes. *)
Lemma isValidOptions_ok_iff order : ∀ r,
  (isValidOptions order r).2 = None ↔ Forall (option_ok r) order.
Proof.
  induction order as [|[opt val] rest IH]; intros r; simpl.
  { split; [constructor | done]. }
  rewrite Forall_cons. unfold option_ok at 1. simpl.
  pose proof (option_case_frame opt val r) as (Ho & _).
  destruct (option_case opt val r) as [r1 [err|]]; simpl in *.
  - split; [done | by intros [? _]].
  - rewrite IH. split.
    + intros H. split; [done|].
      eapply Forall_impl; [exact H|]. intros e. by apply option_ok_options.
    + intros [_ H]. eapply Forall_impl; [exact H|].
      intros e. by apply option_ok_options.
Qed.

(** An error of the loop is the error of one of the visited entries. *)
Lemma isValidOptions_error_inv order : ∀ r err,
  (isValidOptions order r).2 = Some err →
  ∃ opt val, (opt, val) ∈ order ∧ (option_case opt val r).2 = Some err.
Proof.
  induction order as [|[opt val] rest IH]; intros r err; simpl; [done|].
  pose proof (option_case_frame opt val r) as (Ho & _).
  destruct (option_case opt val r) as [r1 [err'|]] eqn:Hc; simpl in *.
  - intros [= ->]. exists opt, val. rewrite Hc. split; [left | done].
  - intros (opt' & val' & Hin & Herr)%IH. exists opt', val'.
    split; [by right|].
    by rewrite <- (option_case_snd opt' val' r1 r Ho).
Qed.

(** The first entry that does not pass is the one whose error the loop
    returns. *)
Lemma isValidOptions_first_error pre opt val post r err :
  Forall (option_ok r) pre →
  (option_case opt val r).2 = Some err →
  (isValidOptions (pre ++ (opt, val) :: post) r).2 = Some err.
Proof.
  intros Hpre Herr. rewrite isValidOptions_app.
  apply isValidOptions_ok_iff in Hpre.
  pose proof (isValidOptions_frame pre r) as (Ho & _).
  destruct (isValidOptions pre r) as [r1 [e|]]; simpl in *; [done|].
  rewrite (option_case_snd opt val r r1) in Herr by done.
  destruct (option_case opt val r1) as [r2 [e|]]; simpl in *; done.
Qed.

(** ** What the loop caches *)

Lemma cache_inv_start r : cache_inv r [] r.
Proof. split; try done; by intros ?%elem_of_nil. Qed.

Lemma cache_inv_seen r0 seen seen' r :
  (∀ k, k ∈ seen ↔ k ∈ seen') → cache_inv r0 seen r → cache_inv r0 seen' r.
Proof.
  intros Heq [].
  split; try done; intros H; first [apply Heq in H | rewrite <- Heq in H]; auto.
Qed.

(** One passing entry of the table extends the invariant by its key. *)
Lemma option_case_cache_inv r0 seen r opt val r' :
  cache_inv r0 seen r →
  options r0 !! opt = Some val →
  option_case opt val r = (r', None) →
  cache_inv r0 (opt :: seen) r'.
Proof.
  intros [] Hval Hcase.
  switch_cases.
  all: split; simpl; try done.
  all: rewrite ?elem_of_cons, ?not_elem_of_cons.
  all: try (intros [?|?]; [done|]); try (intros [? ?]); eauto.
  all: try done.
  all: intros Hno; exfalso; apply Hno; by left.
Qed.

(** The loop keeps the invariant: when it returns, the keys of the entries
    that have passed, a prefix of the visiting order, are the seen ones. *)
Lemma isValidOptions_cache_inv order : ∀ r0 seen r,
  cache_inv r0 seen r →
  (∀ opt val, (opt, val) ∈ order → options r0 !! opt = Some val) →
  ∃ pre, pre `prefix_of` order
         ∧ cache_inv r0 (pre.*1 ++ seen) (isValidOptions order r).1
         ∧ ((isValidOptions order r).2 = None → pre = order).
Proof.
  induction order as [|[opt val] rest IH]; intros r0 seen r Hinv Hin; simpl.
  { exists []. split; [done|]. by split. }
  destruct (option_case opt val r) as [r1 [err|]] eqn:Hcase; simpl.
  - apply option_case_error in Hcase as ->.
    exists []. split; [apply prefix_nil | by split].
  - assert (cache_inv r0 (opt :: seen) r1) as Hinv1.
    { eapply option_case_cache_inv; [done | | done]. apply Hin. left. }
    destruct (IH r0 (opt :: seen) r1 Hinv1) as (pre & Hpre & Hinv' & Hall).
    { intros k v Hkv. apply Hin. by right. }
    exists ((opt, val) :: pre). split; [by apply prefix_cons|]. split.
    + eapply cache_inv_seen; [|exact Hinv']. intros k. simpl.
      rewrite !elem_of_app, !elem_of_cons, elem_of_app. tauto.
    + intros Hnone. by rewrite (Hall Hnone).
Qed.

(** ** Visiting orders *)

Lemma iteration_lookup m order opt val :
  iteration_of m order → (opt, val) ∈ order ↔ m !! opt = Some val.
Proof.
  unfold iteration_of. intros ->. apply (elem_of_map_to_list m opt val).
Qed.

Lemma iteration_keys m order opt :
  iteration_of m order → opt ∈ order.*1 ↔ is_Some (m !! opt).
Proof.
  intros Hit. rewrite list_elem_of_fmap. split.
  - intros ([k v] & -> & Hin). exists v. by apply (iteration_lookup m order).
  - intros [v Hv]. exists (opt, v). split; [done|].
    by apply (iteration_lookup m order).
Qed.

Lemma iteration_NoDup m order : iteration_of m order → NoDup order.*1.
Proof.
  unfold iteration_of. intros ->. apply NoDup_fst_map_to_list.
Qed.

Lemma iteration_Forall m order1 order2 (P : string * string → Prop) :
  iteration_of m order1 → iteration_of m order2 →
  Forall P order1 → Forall P order2.
Proof.
  unfold iteration_of. intros H1 H2. rewrite H1, H2. done.
Qed.

(** A pass over the whole table that ends without an error leaves the
    descriptor [cached r], whatever the visiting order was. *)
Lemma isValidOptions_cached order r r' :
  iteration_of (options r) order →
  isValidOptions order r = (r', None) →
  r' = cached r.
Proof.
  intros Hit Hrun.
  destruct (isValidOptions_cache_inv order r [] r (cache_inv_start r))
    as (pre & _ & Hinv & Hall).
  { intros opt val. by apply iteration_lookup. }
  rewrite Hrun in Hinv, Hall. simpl in *. rewrite (Hall eq_refl) in Hinv.
  rewrite app_nil_r in Hinv. destruct Hinv as [Ho Hr Hn Hf Hf' Hu Hu' Hv Hv' Hw Hw'].
  pose proof (λ k, iteration_keys (options r) order k Hit) as Hkeys.
  destruct r' as [res' nm' fm' rn' rv' up' op']. unfold cached. simpl in *.
  assert (∀ k, k ∉ order.*1 → options r !! k = None) as Hnone.
  { intros k Hk. apply eq_None_not_Some. by rewrite <- Hkeys. }
  f_equal; try done.
  - destruct (decide (OptionFormat ∈ order.*1)) as [Hin|Hout].
    + by rewrite (Hf Hin).
    + rewrite (Hnone _ Hout). auto.
  - destruct (decide (OptionRenewal ∈ order.*1)) as [Hin|Hout].
    + destruct (Hw Hin) as (val & -> & Hp). by rewrite Hp.
    + rewrite (Hnone _ Hout). auto.
  - destruct (decide (OptionRevoke ∈ order.*1)) as [Hin|Hout].
    + destruct (Hv Hin) as (val & -> & Hp). by rewrite Hp.
    + rewrite (Hnone _ Hout). auto.
  - destruct (decide (OptionUpdate ∈ order.*1)) as [Hin|Hout].
    + destruct (Hu Hin) as (val & -> & Hp). by rewrite Hp.
    + rewrite (Hnone _ Hout). auto.
Qed.

Lemma cached_idemp r : cached (cached r) = cached r.
Proof.
  unfold cached. simpl. f_equal.
  - by destruct (options r !! OptionFormat).
  - destruct (options r !! OptionRenewal) as [val|]; [|done].
    by destruct (ParseBool val).
  - destruct (options r !! OptionRevoke) as [val|]; [|done].
    by destruct (ParseBool val).
  - destruct (options r !! OptionUpdate) as [val|]; [|done].
    by destruct (ParseDuration val).
Qed.

(** The loop ends without an error under one visiting order exactly when it
    does under any other. *)
Lemma isValidOptions_order order1 order2 r :
  iteration_of (options r) order1 → iteration_of (options r) order2 →
  (isValidOptions order1 r).2 = None → (isValidOptions order2 r).2 = None.
Proof.
  intros H1 H2. rewrite !isValidOptions_ok_iff.
  by apply (iteration_Forall (options r)).
Qed.

(** ** The supported resource types *)

Lemma validResources_lookup res :
  validResources !! res = None
  ↔ res ∉ ["pki"; "aws"; "secret"; "mysql"; "tpl"; "postgres"; "cassandra"].
Proof.
  unfold validResources. rewrite <- not_elem_of_list_to_map. done.
Qed.

(** ** The three checks together *)

Lemma isValidResource_frame r1 r2 :
  resource r1 = resource r2 → options r1 = options r2 →
  isValidResource r1 = isValidResource r2.
Proof. unfold isValidResource. by intros -> ->. Qed.

(** [IsValid] accepts exactly when the resource type is a key of
    [validResources], every visited entry passes and no required option is
    missing. *)
Lemma IsValid_ok_iff order r :
  (IsValid order r).2 = None
  ↔ is_Some (validResources !! resource r)
    ∧ Forall (option_ok r) order
    ∧ isValidResource r = None.
Proof.
  rewrite <- isValidOptions_ok_iff. unfold IsValid.
  pose proof (isValidOptions_frame order r) as (Ho & Hr & _).
  destruct (validResources !! resource r) as [b|]; simpl.
  - destruct (isValidOptions order r) as [r' [err|]]; simpl in *.
    + split; [done | by intros (_ & ? & _)].
    + rewrite (isValidResource_frame r' r Hr Ho).
      destruct (isValidResource r); simpl.
      * split; [done | by intros (_ & _ & ?)].
      * split; [by eauto | done].
  - split; [done | by intros ([? ?] & _)].
Qed.

(** A descriptor that [IsValid] accepts comes back as [cached r]. *)
Lemma IsValid_ok_cached order r r' :
  iteration_of (options r) order →
  IsValid order r = (r', None) →
  r' = cached r.
Proof.
  intros Hit. unfold IsValid.
  destruct (validResources !! resource r); [|done].
  destruct (isValidOptions order r) as [r1 [err|]] eqn:Hrun; [done|].
  destruct (isValidResource r1); [done|]. intros [= <-].
  by apply (isValidOptions_cached order).
Qed.

(** With a supported resource type, an error of the loop is the error of
    [IsValid]. *)
Lemma IsValid_option_error order r err :
  is_Some (validResources !! resource r) →
  (isValidOptions order r).2 = Some err →
  (IsValid order r).2 = Some (InvalidOptions err).
Proof.
  intros [b Hb] Herr. unfold IsValid. rewrite Hb.
  destruct (isValidOptions order r) as [r' [e|]]; simpl in *; by simplify_eq.
Qed.

(** An entry that does not pass makes the loop stop with an error, whatever
    the visiting order is. *)
Lemma isValidOptions_invalid order r opt val :
  iteration_of (options r) order →
  options r !! opt = Some val → ¬ option_ok r (opt, val) →
  ∃ err, (isValidOptions order r).2 = Some err.
Proof.
  intros Hit Hval Hbad.
  destruct ((isValidOptions order r).2) as [err|] eqn:E; [by eexists|].
  apply isValidOptions_ok_iff in E. exfalso. apply Hbad.
  rewrite Forall_forall in E. apply E.
  by apply (iteration_lookup (options r) order).
Qed.

(** With a supported resource type the descriptor that [IsValid] leaves is
    the one the loop leaves; with an unsupported one it is untouched. *)
Lemma IsValid_fst order r :
  (IsValid order r).1
  = match validResources !! resource r with
    | Some _ => (isValidOptions order r).1
    | None => r
    end.
Proof.
  unfold IsValid. destruct (validResources !! resource r); [|done].
  destruct (isValidOptions order r) as [r' [err|]]; [done|].
  by destruct (isValidResource r').
Qed.

(** Whatever the outcome, the loop leaves the invariant for the keys it has
    seen. *)
Lemma isValidOptions_seen order r :
  iteration_of (options r) order →
  ∃ seen, cache_inv r seen (isValidOptions order r).1.
Proof.
  intros Hit.
  destruct (isValidOptions_cache_inv order r [] r (cache_inv_start r))
    as (pre & _ & Hinv & _); [|by eexists].
  intros opt val. by apply iteration_lookup.
Qed.

(** An entry the loop reaches and that passes has its key among the seen
    ones when the loop returns, whether later entries pass or not. *)
Lemma reaches_seen order r opt val :
  iteration_of (options r) order →
  reaches order r opt val → option_ok r (opt, val) →
  ∃ seen, opt ∈ seen ∧ cache_inv r seen (isValidOptions order r).1.
Proof.
  intros Hit (pre & post & -> & Hpre) Hok.
  assert (∀ k v, (k, v) ∈ (pre ++ (opt, val) :: post)%list →
                 options r !! k = Some v) as Hin.
  { intros k v. by apply iteration_lookup. }
  rewrite isValidOptions_app. apply isValidOptions_ok_iff in Hpre.
  destruct (isValidOptions_cache_inv pre r [] r (cache_inv_start r))
    as (p & _ & Hinv & Hall).
  { intros k v Hkv. apply Hin, elem_of_app. by left. }
  destruct (isValidOptions pre r) as [r1 [e|]]; simpl in *; [done|].
  rewrite (Hall eq_refl) in Hinv. clear Hall p.
  unfold option_ok in Hok. simpl in Hok.
  rewrite (option_case_snd opt val r r1) in Hok by (by destruct Hinv).
  destruct (option_case opt val r1) as [r2 [e|]] eqn:Hcase; simpl in *; [done|].
  assert (cache_inv r (opt :: pre.*1 ++ []) r2) as Hinv2.
  { eapply option_case_cache_inv; [exact Hinv | | exact Hcase].
    apply Hin, elem_of_app. right. left. }
  destruct (isValidOptions_cache_inv post r _ r2 Hinv2) as (p & _ & Hinv' & _).
  { intros k v Hkv. apply Hin, elem_of_app. right. by right. }
  eexists. split; [|exact Hinv'].
  apply elem_of_app. right. left.
Qed.

Lemma reaches_error order r opt val err :
  reaches order r opt val →
  (option_case opt val r).2 = Some err →
  (isValidOptions order r).2 = Some err.
Proof.
  intros (pre & post & -> & Hpre). by apply isValidOptions_first_error.
Qed.

(** The entries that an accepting run visits are all reached. *)
Lemma Forall_reaches order r opt val :
  Forall (option_ok r) order → (opt, val) ∈ order → reaches order r opt val.
Proof.
  intros Hall (pre & post & ->)%list_elem_of_split.
  exists pre, post. split; [done|].
  by apply Forall_app in Hall as [? _].
Qed.

Lemma MatchString_resourceFormatRegex val :
  MatchString resourceFormatRegex val = true
  ↔ val ∈ ["yaml"; "json"; "ini"; "txt"; "cert"; "csv"].
Proof.
  unfold MatchString, resourceFormatRegex. rewrite existsb_exists.
  setoid_rewrite String.eqb_eq. setoid_rewrite <- list_elem_of_In.
  split; [by intros (? & ? & ->) | by eauto].
Qed.

(** An option of the table that does not pass makes [IsValid] fail under
    every visiting order. *)
Lemma IsValid_invalid order r opt val :
  iteration_of (options r) order →
  options r !! opt = Some val → ¬ option_ok r (opt, val) →
  (IsValid order r).2 ≠ None.
Proof.
  intros Hit Hval Hbad (_ & Hall & _)%IsValid_ok_iff. apply Hbad.
  rewrite Forall_forall in Hall. apply Hall.
  by apply (iteration_lookup (options r) order).
Qed.

Lemma reaches_IsValid_error order r opt val err :
  is_Some (validResources !! resource r) →
  reaches order r opt val →
  (option_case opt val r).2 = Some err →
  (IsValid order r).2 = Some (InvalidOptions err).
Proof.
  intros Hres Hreach Herr. apply IsValid_option_error; [done|].
  by apply (reaches_error order r opt val).
Qed.

Lemma reaches_IsValid_seen order r opt val :
  iteration_of (options r) order →
  is_Some (validResources !! resource r) →
  reaches order r opt val → option_ok r (opt, val) →
  ∃ seen, opt ∈ seen ∧ cache_inv r seen (IsValid order r).1.
Proof.
  intros Hit [b Hb] Hreach Hok. rewrite IsValid_fst, Hb.
  by apply (reaches_seen order r opt val).
Qed.

(** When [IsValid] accepts, every option of the table was reached and
    passed. *)
Lemma IsValid_ok_reaches order r r' opt val :
  iteration_of (options r) order →
  IsValid order r = (r', None) →
  options r !! opt = Some val →
  is_Some (validResources !! resource r)
  ∧ reaches order r opt val ∧ option_ok r (opt, val).
Proof.
  intros Hit Hrun Hval.
  assert ((IsValid order r).2 = None) as Hok by (by rewrite Hrun).
  apply IsValid_ok_iff in Hok as (Hres & Hall & _).
  assert ((opt, val) ∈ order) as Hin
    by (by apply (iteration_lookup (options r) order)).
  split; [done|]. split; [by apply Forall_reaches|].
  rewrite Forall_forall in Hall. by apply Hall.
Qed.

(** A typed field whose key is not in the table is the same after
    [IsValid], whatever the outcome. *)
Lemma IsValid_absent order r :
  iteration_of (options r) order →
  (options r !! OptionFormat = None → format (IsValid order r).1 = format r)
  ∧ (options r !! OptionUpdate = None →
     update (IsValid order r).1 = update r)
  ∧ (options r !! OptionRevoke = None →
     revoked (IsValid order r).1 = revoked r)
  ∧ (options r !! OptionRenewal = None →
     renewable (IsValid order r).1 = renewable r).
Proof.
  intros Hit. rewrite IsValid_fst.
  destruct (validResources !! resource r); [|done].
  destruct (isValidOptions_seen order r Hit) as [seen []].
  repeat split; intros Hnone.
  - destruct (decide (OptionFormat ∈ seen)) as [Hin|Hout]; [|by auto].
    apply inv_format_seen0 in Hin. congruence.
  - destruct (decide (OptionUpdate ∈ seen)) as [Hin|Hout]; [|by auto].
    apply inv_update_seen0 in Hin as (? & ? & _). congruence.
  - destruct (decide (OptionRevoke ∈ seen)) as [Hin|Hout]; [|by auto].
    apply inv_revoked_seen0 in Hin as (? & ? & _). congruence.
  - destruct (decide (OptionRenewal ∈ seen)) as [Hin|Hout]; [|by auto].
    apply inv_renewable_seen0 in Hin as (? & ? & _). congruence.
Qed.

(** The two outcomes of the case of one option of the table, as [IsValid]
    shows them. *)
Lemma option_fails order r opt val err :
  iteration_of (options r) order →
  options r !! opt = Some val →
  option_case opt val r = (r, Some err) →
  (IsValid order r).2 ≠ None
  ∧ (is_Some (validResources !! resource r) →
     reaches order r opt val →
     (IsValid order r).2 = Some (InvalidOptions err)).
Proof.
  intros Hit Hval Hcase. split.
  - apply (IsValid_invalid order r opt val); [done..|].
    unfold option_ok. simpl. by rewrite Hcase.
  - intros Hres Hreach.
    apply (reaches_IsValid_error order r opt val); [done..|].
    by rewrite Hcase.
Qed.

Lemma option_passes order r opt val r1 :
  iteration_of (options r) order →
  options r !! opt = Some val →
  option_case opt val r = (r1, None) →
  (is_Some (validResources !! resource r) →
   reaches order r opt val →
   ∃ seen, opt ∈ seen ∧ cache_inv r seen (IsValid order r).1)
  ∧ (∀ r', IsValid order r = (r', None) →
           ∃ seen, opt ∈ seen ∧ cache_inv r seen r').
Proof.
  intros Hit Hval Hcase.
  assert (option_ok r (opt, val)) as Hok.
  { unfold option_ok. simpl. by rewrite Hcase. }
  split.
  - intros Hres Hreach. by apply (reaches_IsValid_seen order r opt val).
  - intros r' Hrun.
    destruct (IsValid_ok_reaches order r r' opt val)
      as (Hres & Hreach & _); [done..|].
    destruct (reaches_IsValid_seen order r opt val) as (seen & ? & Hinv);
      [done..|].
    rewrite Hrun in Hinv. by exists seen.
Qed.

(** ** The properties of the specification *)

(** C1. A descriptor whose resource type is outside pki, aws, secret, mysql,
    tpl, postgres, cassandra is rejected with [UnsupportedResourceType]
    carrying that type, with the descriptor left as it was, whatever its
    options, its name and the visiting order are; for a type of the set the
    error of [IsValid], if any, is another one. *)
Theorem IsValid_resource_type order r :
  (resource r ∉ ["pki"; "aws"; "secret"; "mysql"; "tpl"; "postgres";
                 "cassandra"] →
   IsValid order r = (r, Some (UnsupportedResourceType (resource r)))
   ∧ ValidateError_Error (UnsupportedResourceType (resource r))
     = "unsupported resource type: " ++ resource r)
  ∧ (resource r ∈ ["pki"; "aws"; "secret"; "mysql"; "tpl"; "postgres";
                   "cassandra"] →
     ∀ res, (IsValid order r).2 ≠ Some (UnsupportedResourceType res)).
Proof.
  split.
  - intros Hout%validResources_lookup. unfold IsValid. by rewrite Hout.
  - intros Hin res. unfold IsValid.
    destruct (validResources !! resource r) eqn:E.
    + destruct (isValidOptions order r) as [r' [err|]]; [done|].
      by destruct (isValidResource r').
    + by apply validResources_lookup in E.
Qed.

(** C6. [GetFilename] is a total function of the descriptor, with no
    condition on its validity: the value of the fn option as it stands when
    the key is present, be it empty or a path with separators, and
    name.resourceType when the key is absent. *)
Theorem GetFilename_spec r :
  (∀ path, options r !! OptionFilename = Some path → GetFilename r = path)
  ∧ (options r !! OptionFilename = None →
     GetFilename r = name r ++ "." ++ resource r).
Proof.
  unfold GetFilename. split.
  - by intros path ->.
  - by intros ->.
Qed.

(** C4. Once the resource type check and the pass over the options have
    succeeded: a pki descriptor is rejected, with [MissingRequiredOption],
    exactly when the cn key is missing from its options, and accepted
    exactly when the key is there, whatever its value; the same holds of a
    tpl descriptor and the tpl key; a descriptor of any other type is
    accepted. *)
Theorem isValidResource_required order r r' :
  is_Some (validResources !! resource r) →
  isValidOptions order r = (r', None) →
  (resource r = "pki" →
   (options r !! OptionCommonName = None ↔
    IsValid order r
    = (r', Some (InvalidResource (String_ r)
                   (MissingRequiredOption "pki" OptionCommonName))))
   ∧ (is_Some (options r !! OptionCommonName) ↔ IsValid order r = (r', None)))
  ∧ (resource r = "tpl" →
     (options r !! OptionTemplatePath = None ↔
      IsValid order r
      = (r', Some (InvalidResource (String_ r)
                     (MissingRequiredOption "tpl" OptionTemplatePath))))
     ∧ (is_Some (options r !! OptionTemplatePath) ↔
        IsValid order r = (r', None)))
  ∧ (resource r ≠ "pki" → resource r ≠ "tpl" → IsValid order r = (r', None)).
Proof.
  intros [b Hres] Hrun.
  pose proof (isValidOptions_frame order r) as (Ho & Hr & Hn).
  rewrite Hrun in Ho, Hr, Hn. simpl in *.
  assert (String_ r' = String_ r) as Hs by (unfold String_; congruence).
  unfold IsValid. rewrite Hres, Hrun. unfold isValidResource.
  rewrite Hr, Ho, Hs.
  split; [|split].
  - intros Hpki. rewrite decide_True by done.
    destruct (options r !! OptionCommonName) as [cn|].
    + split; split; try done; intros _; by eexists.
    + split; split; try done; by intros [? ?].
  - intros Htpl. rewrite decide_False by (by rewrite Htpl).
    rewrite decide_True by done.
    destruct (options r !! OptionTemplatePath) as [path|].
    + split; split; try done; intros _; by eexists.
    + split; split; try done; by intros [? ?].
  - intros Hn1 Hn2. by rewrite !decide_False by done.
Qed.

(** C7. [IsValid] is idempotent: when a first call accepts the descriptor,
    a second call on the descriptor the first one left, under any visiting
    order, accepts it too and leaves it as it is, so that format, renewable,
    revoked and update are those the first call cached. *)
Theorem IsValid_idempotent order1 order2 r r1 :
  iteration_of (options r) order1 →
  iteration_of (options r) order2 →
  IsValid order1 r = (r1, None) →
  IsValid order2 r1 = (r1, None).
Proof.
  intros H1 H2 Hfirst.
  assert (r1 = cached r) as -> by (by apply (IsValid_ok_cached order1)).
  assert ((IsValid order2 (cached r)).2 = None) as Hsnd.
  { assert ((IsValid order1 r).2 = None) as Hok by (by rewrite Hfirst).
    apply IsValid_ok_iff in Hok as (Hres & Hall & Hreq).
    apply IsValid_ok_iff. split; [done|]. split.
    - apply (iteration_Forall (options r) order1 order2); [done..|].
      eapply Forall_impl; [exact Hall|].
      intros e. by apply option_ok_options.
    - by rewrite (isValidResource_frame (cached r) r). }
  destruct (IsValid order2 (cached r)) as [r2 e] eqn:Hrun. simpl in Hsnd.
  subst e. f_equal.
  rewrite (IsValid_ok_cached order2 (cached r) r2); [|done..].
  apply cached_idemp.
Qed.

(** C9, amended.  For two visiting orders of the same option table:
    [IsValid] accepts under one exactly when it accepts under the other, and
    then returns the same descriptor; and when the resource type is supported
    and some option does not pass, [IsValid] fails under every order with the
    error, wrapped as an options error, of one of the options of the table
    that do not pass. *)
Theorem IsValid_order_independent order1 order2 r :
  iteration_of (options r) order1 →
  iteration_of (options r) order2 →
  ((IsValid order1 r).2 = None ↔ (IsValid order2 r).2 = None)
  ∧ ((IsValid order1 r).2 = None → IsValid order1 r = IsValid order2 r)
  ∧ (is_Some (validResources !! resource r) →
     (∃ opt val, options r !! opt = Some val ∧ ¬ option_ok r (opt, val)) →
     ∃ opt val err,
       options r !! opt = Some val
       ∧ (option_case opt val r).2 = Some err
       ∧ (IsValid order1 r).2 = Some (InvalidOptions err)).
Proof.
  intros H1 H2.
  assert (∀ o o', iteration_of (options r) o → iteration_of (options r) o' →
          (IsValid o r).2 = None → (IsValid o' r).2 = None) as Hmono.
  { intros o o' Ho Ho'. rewrite !IsValid_ok_iff.
    intros (? & Hall & ?). split; [done|]. split; [|done].
    by apply (iteration_Forall (options r) o o'). }
  split; [|split].
  - split; by apply Hmono.
  - intros Hok1. pose proof (Hmono _ _ H1 H2 Hok1) as Hok2.
    destruct (IsValid order1 r) as [r1 e1] eqn:E1.
    destruct (IsValid order2 r) as [r2 e2] eqn:E2. simpl in *. subst.
    by rewrite (IsValid_ok_cached order1 r r1), (IsValid_ok_cached order2 r r2).
  - intros Hres (opt & val & Hval & Hbad).
    destruct (isValidOptions_invalid order1 r opt val) as [err Herr]; [done..|].
    destruct (isValidOptions_error_inv order1 r err Herr)
      as (opt' & val' & Hin & Hcase).
    exists opt', val', err. split; [|split; [done|]].
    + by apply (iteration_lookup (options r) order1).
    + by apply IsValid_option_error.
Qed.

(** C10. A pki descriptor with the cn key passes validation when its other
    options pass, whatever the value of cn is, the empty string included:
    the case of the cn key in the loop assigns and reports nothing, the
    required-option check looks the key up and drops the value. *)
Theorem pki_common_name_unchecked order r cn :
  resource r = "pki" →
  options r !! OptionCommonName = Some cn →
  iteration_of (options r) order →
  (∀ opt val, options r !! opt = Some val → opt ≠ OptionCommonName →
              option_ok r (opt, val)) →
  option_case OptionCommonName cn r = (r, None)
  ∧ isValidResource r = None
  ∧ IsValid order r = (cached r, None).
Proof.
  intros Hpki Hcn Hit Hrest.
  assert (option_case OptionCommonName cn r = (r, None)) as Hcase by done.
  assert (isValidResource r = None) as Hreq.
  { unfold isValidResource. rewrite decide_True by done. by rewrite Hcn. }
  split; [done|]. split; [done|].
  assert ((IsValid order r).2 = None) as Hok.
  { apply IsValid_ok_iff. split; [by rewrite Hpki|]. split; [|done].
    apply Forall_forall. intros [opt val] Hin.
    apply (iteration_lookup (options r) order) in Hin; [|done].
    destruct (decide (opt = OptionCommonName)) as [->|Hne].
    - assert (val = cn) as -> by congruence. done.
    - by apply Hrest. }
  destruct (IsValid order r) as [r' e] eqn:Hrun. simpl in Hok. subst e.
  by rewrite (IsValid_ok_cached order r r').
Qed.

(** C2, amended.  For an option table with the fmt key: a value outside
    yaml, json, ini, txt, cert, csv makes the fmt case of the loop report
    [InvalidFormat] with that value and makes [IsValid] fail under every
    visiting order; the error of [IsValid] is that [InvalidFormat] when the
    resource type is supported and the loop reaches the fmt entry.  A value
    of the enumeration makes the fmt case assign it to format as it stands;
    with a supported type and the entry reached, and so whenever [IsValid]
    accepts, format holds it on return.  Without the fmt key format is the
    same after the call as before, yaml for a descriptor built from the
    defaults. *)
Theorem fmt_option order r :
  iteration_of (options r) order →
  (∀ val, options r !! OptionFormat = Some val →
     (val ∉ ["yaml"; "json"; "ini"; "txt"; "cert"; "csv"] →
      option_case OptionFormat val r = (r, Some (InvalidFormat val))
      ∧ (IsValid order r).2 ≠ None
      ∧ (is_Some (validResources !! resource r) →
         reaches order r OptionFormat val →
         (IsValid order r).2 = Some (InvalidOptions (InvalidFormat val))))
     ∧ (val ∈ ["yaml"; "json"; "ini"; "txt"; "cert"; "csv"] →
        option_case OptionFormat val r = (set_format val r, None)
        ∧ (is_Some (validResources !! resource r) →
           reaches order r OptionFormat val →
           format (IsValid order r).1 = val)
        ∧ (∀ r', IsValid order r = (r', None) → format r' = val)))
  ∧ (options r !! OptionFormat = None → format (IsValid order r).1 = format r)
  ∧ format defaultVaultResource = "yaml".
Proof.
  intros Hit. split; [|split; [apply (IsValid_absent order r Hit) | done]].
  intros val Hval. split.
  - intros Hout.
    assert (MatchString resourceFormatRegex val = false) as Hno.
    { apply not_true_is_false. by rewrite MatchString_resourceFormatRegex. }
    assert (option_case OptionFormat val r = (r, Some (InvalidFormat val)))
      as Hcase.
    { unfold option_case. rewrite decide_True by done.
      unfold index. rewrite Hval. simpl. by rewrite Hno. }
    split; [done|]. split.
    + apply (IsValid_invalid order r OptionFormat val); [done..|].
      unfold option_ok. simpl. by rewrite Hcase.
    + intros Hres Hreach.
      apply (reaches_IsValid_error order r OptionFormat val); [done..|].
      by rewrite Hcase.
  - intros Hin%MatchString_resourceFormatRegex.
    assert (option_case OptionFormat val r = (set_format val r, None))
      as Hcase.
    { unfold option_case. rewrite decide_True by done.
      unfold index. rewrite Hval. simpl. by rewrite Hin. }
    assert (is_Some (validResources !! resource r) →
            reaches order r OptionFormat val →
            format (IsValid order r).1 = val) as Hreached.
    { intros Hres Hreach.
      destruct (reaches_IsValid_seen order r OptionFormat val)
        as (seen & Hseen & []); [done..| |].
      { unfold option_ok. simpl. by rewrite Hcase. }
      apply inv_format_seen0 in Hseen. congruence. }
    split; [done|]. split; [done|].
    intros r' Hrun.
    destruct (IsValid_ok_reaches order r r' OptionFormat val)
      as (Hres & Hreach & _); [done..|].
    specialize (Hreached Hres Hreach). by rewrite Hrun in Hreached.
Qed.

(** C3, amended.  For an option table with the up key: a value that
    [ParseDuration] accepts makes the up case assign the parsed duration to
    update, which holds it on return when the resource type is supported and
    the loop reaches the entry, and so whenever [IsValid] accepts; a value it
    rejects makes the case report [InvalidDuration], makes [IsValid] fail
    under every visiting order, and is the error of [IsValid] when the type
    is supported and the entry is reached.  The same holds of the rn key,
    [ParseBool] and renewable, and of the rv key, [ParseBool] and revoked,
    with [InvalidBoolean]. *)
Theorem typed_options order r :
  iteration_of (options r) order →
  (∀ val, options r !! OptionUpdate = Some val →
     (∀ d, ParseDuration val = Some d →
        option_case OptionUpdate val r = (set_update d r, None)
        ∧ (is_Some (validResources !! resource r) →
           reaches order r OptionUpdate val →
           update (IsValid order r).1 = d)
        ∧ (∀ r', IsValid order r = (r', None) → update r' = d))
     ∧ (ParseDuration val = None →
        option_case OptionUpdate val r = (r, Some (InvalidDuration val))
        ∧ (IsValid order r).2 ≠ None
        ∧ (is_Some (validResources !! resource r) →
           reaches order r OptionUpdate val →
           (IsValid order r).2 = Some (InvalidOptions (InvalidDuration val)))))
  ∧ (∀ val, options r !! OptionRenewal = Some val →
       (∀ b, ParseBool val = Some b →
          option_case OptionRenewal val r = (set_renewable b r, None)
          ∧ (is_Some (validResources !! resource r) →
             reaches order r OptionRenewal val →
             renewable (IsValid order r).1 = b)
          ∧ (∀ r', IsValid order r = (r', None) → renewable r' = b))
       ∧ (ParseBool val = None →
          option_case OptionRenewal val r
          = (r, Some (InvalidBoolean OptionRenewal val))
          ∧ (IsValid order r).2 ≠ None
          ∧ (is_Some (validResources !! resource r) →
             reaches order r OptionRenewal val →
             (IsValid order r).2
             = Some (InvalidOptions (InvalidBoolean OptionRenewal val)))))
  ∧ (∀ val, options r !! OptionRevoke = Some val →
       (∀ b, ParseBool val = Some b →
          option_case OptionRevoke val r = (set_revoked b r, None)
          ∧ (is_Some (validResources !! resource r) →
             reaches order r OptionRevoke val →
             revoked (IsValid order r).1 = b)
          ∧ (∀ r', IsValid order r = (r', None) → revoked r' = b))
       ∧ (ParseBool val = None →
          option_case OptionRevoke val r
          = (r, Some (InvalidBoolean OptionRevoke val))
          ∧ (IsValid order r).2 ≠ None
          ∧ (is_Some (validResources !! resource r) →
             reaches order r OptionRevoke val →
             (IsValid order r).2
             = Some (InvalidOptions (InvalidBoolean OptionRevoke val))))).
Proof.
  intros Hit. split; [|split]; intros val Hval; split.
  - intros d Hd.
    assert (option_case OptionUpdate val r = (set_update d r, None)) as Hcase.
    { unfold option_case. simpl. by rewrite Hd. }
    destruct (option_passes order r _ _ _ Hit Hval Hcase) as [Hreached Hacc].
    split; [done|]. split.
    + intros Hres Hreach.
      destruct (Hreached Hres Hreach) as (seen & Hseen & []).
      apply inv_update_seen0 in Hseen as (v & ? & ?). congruence.
    + intros r' Hrun. destruct (Hacc r' Hrun) as (seen & Hseen & []).
      apply inv_update_seen0 in Hseen as (v & ? & ?). congruence.
  - intros Hd.
    assert (option_case OptionUpdate val r = (r, Some (InvalidDuration val)))
      as Hcase.
    { unfold option_case. simpl. by rewrite Hd. }
    split; [done|]. by apply (option_fails order r OptionUpdate val).
  - intros b Hb.
    assert (option_case OptionRenewal val r = (set_renewable b r, None))
      as Hcase.
    { unfold option_case. simpl. by rewrite Hb. }
    destruct (option_passes order r _ _ _ Hit Hval Hcase) as [Hreached Hacc].
    split; [done|]. split.
    + intros Hres Hreach.
      destruct (Hreached Hres Hreach) as (seen & Hseen & []).
      apply inv_renewable_seen0 in Hseen as (v & ? & ?). congruence.
    + intros r' Hrun. destruct (Hacc r' Hrun) as (seen & Hseen & []).
      apply inv_renewable_seen0 in Hseen as (v & ? & ?). congruence.
  - intros Hb.
    assert (option_case OptionRenewal val r
            = (r, Some (InvalidBoolean OptionRenewal val))) as Hcase.
    { unfold option_case. simpl. by rewrite Hb. }
    split; [done|]. by apply (option_fails order r OptionRenewal val).
  - intros b Hb.
    assert (option_case OptionRevoke val r = (set_revoked b r, None))
      as Hcase.
    { unfold option_case. simpl. by rewrite Hb. }
    destruct (option_passes order r _ _ _ Hit Hval Hcase) as [Hreached Hacc].
    split; [done|]. split.
    + intros Hres Hreach.
      destruct (Hreached Hres Hreach) as (seen & Hseen & []).
      apply inv_revoked_seen0 in Hseen as (v & ? & ?). congruence.
    + intros r' Hrun. destruct (Hacc r' Hrun) as (seen & Hseen & []).
      apply inv_revoked_seen0 in Hseen as (v & ? & ?). congruence.
  - intros Hb.
    assert (option_case OptionRevoke val r
            = (r, Some (InvalidBoolean OptionRevoke val))) as Hcase.
    { unfold option_case. simpl. by rewrite Hb. }
    split; [done|]. by apply (option_fails order r OptionRevoke val).
Qed.

(** C5, amended.  For an option table with the tpl key, the filesystem being
    the oracle [fileExists]: a path the oracle does not find makes the tpl
    case report [TemplateNotFound] with that path and makes [IsValid] fail
    under every visiting order; the error of [IsValid] is that
    [TemplateNotFound] when the resource type is supported and the loop
    reaches the tpl entry.  A path the oracle finds makes the tpl case pass
    with nothing assigned. *)
Theorem tpl_option order r val :
  iteration_of (options r) order →
  options r !! OptionTemplatePath = Some val →
  (fileExists val = false →
   option_case OptionTemplatePath val r = (r, Some (TemplateNotFound val))
   ∧ (IsValid order r).2 ≠ None
   ∧ (is_Some (validResources !! resource r) →
      reaches order r OptionTemplatePath val →
      (IsValid order r).2 = Some (InvalidOptions (TemplateNotFound val))))
  ∧ (fileExists val = true →
     option_case OptionTemplatePath val r = (r, None)
     ∧ (resource r = "tpl" →
        (∀ opt v, options r !! opt = Some v → opt ≠ OptionTemplatePath →
                  option_ok r (opt, v)) →
        IsValid order r = (cached r, None))).
Proof.
  intros Hit Hval. split.
  - intros Hno.
    assert (option_case OptionTemplatePath val r
            = (r, Some (TemplateNotFound val))) as Hcase.
    { unfold option_case. simpl. by rewrite Hno. }
    split; [done|]. by apply (option_fails order r OptionTemplatePath val).
  - intros Hyes.
    assert (option_case OptionTemplatePath val r = (r, None)) as Hcase.
    { unfold option_case. simpl. by rewrite Hyes. }
    split; [done|]. intros Htpl Hrest.
    assert ((IsValid order r).2 = None) as Hok.
    { apply IsValid_ok_iff. split; [by rewrite Htpl|]. split.
      - apply Forall_forall. intros [opt v] Hin.
        apply (iteration_lookup (options r) order) in Hin; [|done].
        destruct (decide (opt = OptionTemplatePath)) as [->|Hne].
        + assert (v = val) as -> by congruence.
          unfold option_ok. simpl. by rewrite Hcase.
        + by apply Hrest.
      - unfold isValidResource. rewrite Htpl. simpl. by rewrite Hval. }
    destruct (IsValid order r) as [r' e] eqn:Hrun. simpl in Hok. subst e.
    by rewrite (IsValid_ok_cached order r r').
Qed.

(** C8, amended.  A call of [IsValid] that fails reports one cause, that of
    the first of the three checks that fails: the unsupported resource type;
    or else the error of one option of the table that does not pass; or
    else, all options passing, the missing required option.  It never changes
    the option table, the resource type or the name.  A descriptor rejected
    by the resource type check is left as it was; one rejected later has
    each typed field either as it was or holding the parsed value of its
    option. *)
Theorem IsValid_failure order r r' err :
  iteration_of (options r) order →
  IsValid order r = (r', Some err) →
  ((validResources !! resource r = None
    ∧ err = UnsupportedResourceType (resource r) ∧ r' = r)
   ∨ (is_Some (validResources !! resource r)
      ∧ ∃ opt val e, options r !! opt = Some val
                     ∧ (option_case opt val r).2 = Some e
                     ∧ err = InvalidOptions e)
   ∨ (is_Some (validResources !! resource r)
      ∧ Forall (option_ok r) order
      ∧ ∃ e, isValidResource r = Some e
             ∧ err = InvalidResource (String_ r) e ∧ r' = cached r))
  ∧ options r' = options r ∧ resource r' = resource r ∧ name r' = name r
  ∧ (format r' = format r ∨ options r !! OptionFormat = Some (format r'))
  ∧ (update r' = update r
     ∨ ∃ val, options r !! OptionUpdate = Some val
              ∧ ParseDuration val = Some (update r'))
  ∧ (revoked r' = revoked r
     ∨ ∃ val, options r !! OptionRevoke = Some val
              ∧ ParseBool val = Some (revoked r'))
  ∧ (renewable r' = renewable r
     ∨ ∃ val, options r !! OptionRenewal = Some val
              ∧ ParseBool val = Some (renewable r')).
Proof.
  intros Hit Hrun. split.
  - revert Hrun. unfold IsValid.
    destruct (validResources !! resource r) as [b|] eqn:Hres.
    + destruct (isValidOptions order r) as [r1 [e|]] eqn:Hloop.
      * intros [= <- <-]. right. left. split; [done|].
        destruct (isValidOptions_error_inv order r e)
          as (opt & val & Hin & Hcase); [by rewrite Hloop|].
        exists opt, val, e. split; [|done].
        by apply (iteration_lookup (options r) order).
      * pose proof (isValidOptions_frame order r) as (Ho & Hr & Hn).
        rewrite Hloop in Ho, Hr, Hn. simpl in *.
        rewrite (isValidResource_frame r1 r Hr Ho).
        destruct (isValidResource r) as [e|]; [|done].
        intros [= <- <-]. right. right. split; [done|]. split.
        { apply isValidOptions_ok_iff. by rewrite Hloop. }
        exists e. split; [done|]. split.
        { unfold String_. by rewrite Hr, Hn. }
        by apply (isValidOptions_cached order).
    + intros [= <- <-]. by left.
  - assert (r' = (IsValid order r).1) as -> by (by rewrite Hrun).
    rewrite IsValid_fst.
    destruct (validResources !! resource r).
    + destruct (isValidOptions_seen order r Hit) as [seen []].
      split; [done|]. split; [done|]. split; [done|].
      split; [|split; [|split]].
      * destruct (decide (OptionFormat ∈ seen)); auto.
      * destruct (decide (OptionUpdate ∈ seen)); auto.
      * destruct (decide (OptionRevoke ∈ seen)); auto.
      * destruct (decide (OptionRenewal ∈ seen)); auto.
    + repeat split; auto.
Qed.

(** ** Further properties of the validator *)

(** What passing means for an entry of the table, key by key. *)
Lemma option_ok_iff r opt val :
  options r !! opt = Some val →
  option_ok r (opt, val)
  ↔ (opt = OptionFormat →
      val ∈ ["yaml"; "json"; "ini"; "txt"; "cert"; "csv"])
    ∧ (opt = OptionUpdate → is_Some (ParseDuration val))
    ∧ (opt = OptionRevoke → is_Some (ParseBool val))
    ∧ (opt = OptionRenewal → is_Some (ParseBool val))
    ∧ (opt = OptionTemplatePath → fileExists val = true).
Proof.
  intros Hval. unfold option_ok, option_case. simpl.
  destruct (decide (opt = OptionFormat)) as [->|?].
  { unfold index. rewrite Hval. simpl.
    rewrite <- MatchString_resourceFormatRegex.
    destruct (MatchString resourceFormatRegex val); simpl.
    - by repeat split.
    - split; [done|]. intros (H & _). by specialize (H eq_refl). }
  destruct (decide (opt = OptionUpdate)) as [->|?].
  { destruct (ParseDuration val); simpl.
    - by repeat split.
    - split; [done|]. intros (_ & H & _). by destruct (H eq_refl). }
  destruct (decide (opt = OptionRevoke)) as [->|?].
  { destruct (ParseBool val); simpl.
    - by repeat split.
    - split; [done|]. intros (_ & _ & H & _). by destruct (H eq_refl). }
  destruct (decide (opt = OptionRenewal)) as [->|?].
  { destruct (ParseBool val); simpl.
    - by repeat split.
    - split; [done|]. intros (_ & _ & _ & H & _). by destruct (H eq_refl). }
  destruct (decide (opt = OptionFilename)) as [->|?]; [by repeat split|].
  destruct (decide (opt = OptionCommonName)) as [->|?]; [by repeat split|].
  destruct (decide (opt = OptionTemplatePath)) as [->|?].
  { destruct (fileExists val); simpl.
    - by repeat split.
    - split; [done|]. intros (_ & _ & _ & _ & H). by specialize (H eq_refl). }
  by repeat split.
Qed.

(** Every entry of a visiting order passes exactly when every binding of
    the table does. *)
Lemma iteration_Forall_lookup m order (P : string * string → Prop) :
  iteration_of m order →
  Forall P order ↔ ∀ opt val, m !! opt = Some val → P (opt, val).
Proof.
  intros Hit. rewrite Forall_forall. split.
  - intros H opt val Hval. apply H. by apply (iteration_lookup m order).
  - intros H [opt val] Hin. apply H. by apply (iteration_lookup m order).
Qed.

(** X1. [IsValid] never touches the option table, the resource type or the
    name, whatever the outcome and the visiting order; [GetFilename] and
    [String] therefore give the same strings after the call as before. *)
Theorem IsValid_frame order r :
  options (IsValid order r).1 = options r
  ∧ resource (IsValid order r).1 = resource r
  ∧ name (IsValid order r).1 = name r
  ∧ GetFilename (IsValid order r).1 = GetFilename r
  ∧ String_ (IsValid order r).1 = String_ r.
Proof.
  assert (options (IsValid order r).1 = options r
          ∧ resource (IsValid order r).1 = resource r
          ∧ name (IsValid order r).1 = name r) as (Ho & Hr & Hn).
  { rewrite IsValid_fst. destruct (validResources !! resource r); [|done].
    apply isValidOptions_frame. }
  unfold GetFilename, String_. by rewrite Ho, Hr, Hn.
Qed.

(** Acceptance, read off the table. *)
Lemma accepts_lookup_iff order r :
  iteration_of (options r) order →
  (IsValid order r).2 = None
  ↔ resource r ∈ ["pki"; "aws"; "secret"; "mysql"; "tpl"; "postgres";
                  "cassandra"]
    ∧ (∀ val, options r !! OptionFormat = Some val →
              val ∈ ["yaml"; "json"; "ini"; "txt"; "cert"; "csv"])
    ∧ (∀ val, options r !! OptionUpdate = Some val →
              is_Some (ParseDuration val))
    ∧ (∀ val, options r !! OptionRevoke = Some val → is_Some (ParseBool val))
    ∧ (∀ val, options r !! OptionRenewal = Some val → is_Some (ParseBool val))
    ∧ (∀ val, options r !! OptionTemplatePath = Some val →
              fileExists val = true)
    ∧ (resource r = "pki" → is_Some (options r !! OptionCommonName))
    ∧ (resource r = "tpl" → is_Some (options r !! OptionTemplatePath)).
Proof.
  intros Hit. rewrite IsValid_ok_iff.
  rewrite (iteration_Forall_lookup (options r) order) by done.
  assert (is_Some (validResources !! resource r)
          ↔ resource r ∈ ["pki"; "aws"; "secret"; "mysql"; "tpl"; "postgres";
                          "cassandra"]) as ->.
  { rewrite <- not_eq_None_Some, validResources_lookup.
    split; [apply dec_stable | by intros ? ?]. }
  assert (isValidResource r = None
          ↔ (resource r = "pki" → is_Some (options r !! OptionCommonName))
            ∧ (resource r = "tpl" →
               is_Some (options r !! OptionTemplatePath))) as ->.
  { unfold isValidResource.
    destruct (decide (resource r = "pki")) as [Hp|Hp].
    - destruct (options r !! OptionCommonName).
      + split; [|done]. intros _. split; [by eauto|]. by rewrite Hp.
      + split; [done|]. intros [H _]. by destruct (H Hp).
    - destruct (decide (resource r = "tpl")) as [Ht|Ht].
      + destruct (options r !! OptionTemplatePath).
        * split; [|done]. intros _. split; [done | by eauto].
        * split; [done|]. intros [_ H]. by destruct (H Ht).
      + split; [|done]. by intros _. }
  split.
  - intros (Hres & Hall & Hreq). split; [done|].
    pose proof (λ opt val H, proj1 (option_ok_iff r opt val H) (Hall opt val H))
      as Hk.
    destruct Hreq as [Hpki Htpl].
    repeat (split;
      [intros val Hval;
       destruct (Hk _ val Hval) as (H1 & H2 & H3 & H4 & H5); by auto|]).
    done.
  - intros (Hres & Hf & Hu & Hv & Hn & Ht & Hreq). split; [done|].
    split; [|done]. intros opt val Hval.
    apply (option_ok_iff r opt val Hval).
    repeat split; intros ->; auto.
Qed.

(** X2. [IsValid] accepts a descriptor exactly when its resource type is one
    of the seven, the value of fmt (if the key is there) is one of the six
    formats, the values of up, rv and rn (if there) parse, the path of tpl
    (if there) exists, a pki descriptor has the cn key and a tpl descriptor
    has the tpl key.  Nothing else in the descriptor matters. *)
Theorem IsValid_accepts_iff order r :
  iteration_of (options r) order →
  (IsValid order r).2 = None
  ↔ resource r ∈ ["pki"; "aws"; "secret"; "mysql"; "tpl"; "postgres";
                  "cassandra"]
    ∧ (∀ val, options r !! OptionFormat = Some val →
              val ∈ ["yaml"; "json"; "ini"; "txt"; "cert"; "csv"])
    ∧ (∀ val, options r !! OptionUpdate = Some val →
              is_Some (ParseDuration val))
    ∧ (∀ val, options r !! OptionRevoke = Some val → is_Some (ParseBool val))
    ∧ (∀ val, options r !! OptionRenewal = Some val → is_Some (ParseBool val))
    ∧ (∀ val, options r !! OptionTemplatePath = Some val →
              fileExists val = true)
    ∧ (resource r = "pki" → is_Some (options r !! OptionCommonName))
    ∧ (resource r = "tpl" → is_Some (options r !! OptionTemplatePath)).
Proof. apply accepts_lookup_iff. Qed.

(** X3. An option error that [IsValid] reports is genuine and carries the
    value bound in the table: [InvalidFormat v] means fmt is bound to [v],
    not one of the six formats; [InvalidDuration v] means up is bound to
    [v], which does not parse; [InvalidBoolean opt v] means [opt] is rv or
    rn, bound to [v], which does not parse; [TemplateNotFound v] means tpl is
    bound to [v], which does not exist. *)
Theorem IsValid_option_error_sound order r err :
  iteration_of (options r) order →
  (IsValid order r).2 = Some (InvalidOptions err) →
  match err with
  | InvalidFormat val =>
      options r !! OptionFormat = Some val
      ∧ val ∉ ["yaml"; "json"; "ini"; "txt"; "cert"; "csv"]
  | InvalidDuration val =>
      options r !! OptionUpdate = Some val ∧ ParseDuration val = None
  | InvalidBoolean opt val =>
      (opt = OptionRevoke ∨ opt = OptionRenewal)
      ∧ options r !! opt = Some val ∧ ParseBool val = None
  | TemplateNotFound val =>
      options r !! OptionTemplatePath = Some val ∧ fileExists val = false
  end.
Proof.
  intros Hit Hrun.
  assert ((isValidOptions order r).2 = Some err) as Hloop.
  { revert Hrun. unfold IsValid.
    destruct (validResources !! resource r); [|done].
    destruct (isValidOptions order r) as [r' [e|]]; simpl.
    - by intros [= ->].
    - by destruct (isValidResource r'). }
  destruct (isValidOptions_error_inv order r err Hloop)
    as (opt & val & Hin & Hcase).
  apply (iteration_lookup (options r) order) in Hin; [|done].
  revert Hcase. unfold option_case.
  repeat case_decide; subst; simpl.
  - unfold index. rewrite Hin. simpl.
    destruct (MatchString resourceFormatRegex val) eqn:E; simpl; [done|].
    intros [= <-]. split; [done|].
    rewrite <- MatchString_resourceFormatRegex. by rewrite E.
  - destruct (ParseDuration val) eqn:E; simpl; [done|]. by intros [= <-].
  - destruct (ParseBool val) eqn:E; simpl; [done|]. intros [= <-]. auto.
  - destruct (ParseBool val) eqn:E; simpl; [done|]. intros [= <-]. auto.
  - done.
  - done.
  - destruct (fileExists val) eqn:E; simpl; [done|]. by intros [= <-].
  - done.
Qed.

(** X4. A typed field whose key is missing from the table is never
    written: update without up, revoked without rv and renewable without rn
    are the same after [IsValid] as before, whatever the outcome. *)
Theorem IsValid_absent_keys order r :
  iteration_of (options r) order →
  (options r !! OptionUpdate = None → update (IsValid order r).1 = update r)
  ∧ (options r !! OptionRevoke = None →
     revoked (IsValid order r).1 = revoked r)
  ∧ (options r !! OptionRenewal = None →
     renewable (IsValid order r).1 = renewable r).
Proof. intros Hit. apply (IsValid_absent order r Hit). Qed.

(** X5. With an empty option table [IsValid] assigns nothing; it accepts
    aws, secret, mysql, postgres and cassandra descriptors and rejects pki
    and tpl descriptors for their missing required option. *)
Theorem IsValid_no_options order r :
  options r = ∅ →
  iteration_of (options r) order →
  (IsValid order r).1 = r
  ∧ (resource r ∈ ["aws"; "secret"; "mysql"; "postgres"; "cassandra"] →
     (IsValid order r).2 = None)
  ∧ (resource r = "pki" →
     (IsValid order r).2
     = Some (InvalidResource (String_ r)
               (MissingRequiredOption "pki" OptionCommonName)))
  ∧ (resource r = "tpl" →
     (IsValid order r).2
     = Some (InvalidResource (String_ r)
               (MissingRequiredOption "tpl" OptionTemplatePath))).
Proof.
  intros Hempty Hit. unfold iteration_of in Hit.
  rewrite Hempty, map_to_list_empty in Hit. apply Permutation_nil_r in Hit.
  subst order. unfold IsValid, isValidResource. simpl. rewrite Hempty.
  split; [|split; [|split]].
  - destruct (validResources !! resource r); [|done].
    by repeat case_decide.
  - intros Hin.
    assert (resource r ≠ "pki" ∧ resource r ≠ "tpl") as [Hp Ht].
    { split; intros Heq; rewrite Heq in Hin; revert Hin; compute_done. }
    destruct (validResources !! resource r) eqn:E.
    + by rewrite !decide_False by done.
    + apply validResources_lookup in E. exfalso. apply E.
      revert Hin. rewrite !elem_of_cons. tauto.
  - intros ->. reflexivity.
  - intros ->. reflexivity.
Qed.

(** The loop writes to format only a value the pattern has matched. *)
Lemma isValidOptions_format order : ∀ r,
  (∀ opt val, (opt, val) ∈ order → options r !! opt = Some val) →
  format r ∈ ["yaml"; "json"; "ini"; "txt"; "cert"; "csv"] →
  format (isValidOptions order r).1
  ∈ ["yaml"; "json"; "ini"; "txt"; "cert"; "csv"].
Proof.
  induction order as [|[opt val] rest IH]; intros r Hin Hfmt; simpl; [done|].
  pose proof (option_case_frame opt val r) as (Ho & _).
  assert (format (option_case opt val r).1
          ∈ ["yaml"; "json"; "ini"; "txt"; "cert"; "csv"]) as Hstep.
  { assert (options r !! opt = Some val) as Hval by (apply Hin; left).
    clear IH Ho. unfold option_case.
    repeat case_decide; subst; repeat case_match; simpl; try done.
    apply MatchString_resourceFormatRegex.
    unfold index in *. by rewrite Hval in *. }
  destruct (option_case opt val r) as [r1 [err|]]; simpl in *; [done|].
  apply IH; [|done]. intros k v Hkv. rewrite Ho. apply Hin. by right.
Qed.

(** X6. If format holds one of the six formats before [IsValid], it holds
    one of them after, whether the descriptor is accepted or rejected: the
    loop assigns it only a value the pattern has matched. *)
Theorem IsValid_format_invariant order r :
  iteration_of (options r) order →
  format r ∈ ["yaml"; "json"; "ini"; "txt"; "cert"; "csv"] →
  format (IsValid order r).1 ∈ ["yaml"; "json"; "ini"; "txt"; "cert"; "csv"].
Proof.
  intros Hit Hfmt. rewrite IsValid_fst.
  destruct (validResources !! resource r); [|done].
  apply isValidOptions_format; [|done].
  intros opt val. by apply iteration_lookup.
Qed.

(** Two runs of the loop body, on descriptors with the same option table:
    the error is the same, and each typed field is either the same in both
    results or untouched in both. *)
Lemma option_case_two_runs opt val r s :
  options s = options r →
  (option_case opt val s).2 = (option_case opt val r).2
  ∧ (format (option_case opt val s).1 = format (option_case opt val r).1
     ∨ format (option_case opt val r).1 = format r
       ∧ format (option_case opt val s).1 = format s)
  ∧ (update (option_case opt val s).1 = update (option_case opt val r).1
     ∨ update (option_case opt val r).1 = update r
       ∧ update (option_case opt val s).1 = update s)
  ∧ (revoked (option_case opt val s).1 = revoked (option_case opt val r).1
     ∨ revoked (option_case opt val r).1 = revoked r
       ∧ revoked (option_case opt val s).1 = revoked s)
  ∧ (renewable (option_case opt val s).1
     = renewable (option_case opt val r).1
     ∨ renewable (option_case opt val r).1 = renewable r
       ∧ renewable (option_case opt val s).1 = renewable s).
Proof.
  intros Heq. unfold option_case. rewrite Heq.
  repeat case_decide; repeat case_match; simpl; auto 10.
Qed.

Lemma isValidOptions_two_runs order : ∀ r s,
  options s = options r →
  (isValidOptions order s).2 = (isValidOptions order r).2
  ∧ (format (isValidOptions order s).1 = format (isValidOptions order r).1
     ∨ format (isValidOptions order r).1 = format r
       ∧ format (isValidOptions order s).1 = format s)
  ∧ (update (isValidOptions order s).1 = update (isValidOptions order r).1
     ∨ update (isValidOptions order r).1 = update r
       ∧ update (isValidOptions order s).1 = update s)
  ∧ (revoked (isValidOptions order s).1 = revoked (isValidOptions order r).1
     ∨ revoked (isValidOptions order r).1 = revoked r
       ∧ revoked (isValidOptions order s).1 = revoked s)
  ∧ (renewable (isValidOptions order s).1
     = renewable (isValidOptions order r).1
     ∨ renewable (isValidOptions order r).1 = renewable r
       ∧ renewable (isValidOptions order s).1 = renewable s).
Proof.
  induction order as [|[opt val] rest IH]; intros r s Heq; simpl.
  { split; [done|]. auto 10. }
  pose proof (option_case_two_runs opt val r s Heq)
    as (He & Hf & Hu & Hv & Hn).
  pose proof (option_case_frame opt val r) as (Hor & _).
  pose proof (option_case_frame opt val s) as (Hos & _).
  destruct (option_case opt val r) as [r1 [e1|]],
           (option_case opt val s) as [s1 [e2|]]; simpl in *; try done.
  destruct (IH r1 s1) as (He' & Hf' & Hu' & Hv' & Hn'); [congruence|].
  split; [done|]. repeat split.
  - destruct Hf' as [?|[? ?]]; [by left|]. destruct Hf as [?|[? ?]].
    + left. congruence.
    + right. split; congruence.
  - destruct Hu' as [?|[? ?]]; [by left|]. destruct Hu as [?|[? ?]].
    + left. congruence.
    + right. split; congruence.
  - destruct Hv' as [?|[? ?]]; [by left|]. destruct Hv as [?|[? ?]].
    + left. congruence.
    + right. split; congruence.
  - destruct Hn' as [?|[? ?]]; [by left|]. destruct Hn as [?|[? ?]].
    + left. congruence.
    + right. split; congruence.
Qed.

(** X7. Validating again with the same visiting order changes nothing,
    also after a rejection: the second call returns the descriptor the first
    one left and the same error. *)
Theorem IsValid_again order r :
  IsValid order (IsValid order r).1 = IsValid order r.
Proof.
  assert (isValidOptions order (isValidOptions order r).1
          = isValidOptions order r) as Hloop.
  { pose proof (isValidOptions_frame order r) as (Ho & Hr & Hn).
    pose proof (isValidOptions_frame order (isValidOptions order r).1)
      as (Ho' & Hr' & Hn').
    destruct (isValidOptions_two_runs order r (isValidOptions order r).1 Ho)
      as (He & Hf & Hu & Hv & Hw).
    destruct (isValidOptions order (isValidOptions order r).1) as [s' e'].
    destruct (isValidOptions order r) as [r' e]. simpl in *. subst e'.
    f_equal. destruct s', r'. simpl in *. f_equal; try congruence.
    - by destruct Hf as [?|[_ ?]].
    - by destruct Hw as [?|[_ ?]].
    - by destruct Hv as [?|[_ ?]].
    - by destruct Hu as [?|[_ ?]]. }
  pose proof (isValidOptions_frame order r) as (_ & Hr & _).
  unfold IsValid at 2 3.
  destruct (validResources !! resource r) eqn:Hres.
  - destruct (isValidOptions order r) as [r1 e] eqn:Hrun. simpl in *.
    assert (IsValid order r1
            = match e with
              | Some err => (r1, Some (InvalidOptions err))
              | None =>
                  match isValidResource r1 with
                  | Some err => (r1, Some (InvalidResource (String_ r1) err))
                  | None => (r1, None)
                  end
              end) as Hsnd.
    { unfold IsValid. rewrite Hr, Hres, Hloop. by destruct e. }
    destruct e as [err|]; simpl; [done|].
    by destruct (isValidResource r1).
  - simpl. unfold IsValid. by rewrite Hres.
Qed.

(** X8. When exactly one option of the table does not pass and the
    resource type is supported, [IsValid] reports the error of that option
    under every visiting order. *)
Theorem IsValid_single_invalid order r opt val err :
  iteration_of (options r) order →
  is_Some (validResources !! resource r) →
  options r !! opt = Some val →
  (option_case opt val r).2 = Some err →
  (∀ k v, options r !! k = Some v → k ≠ opt → option_ok r (k, v)) →
  (IsValid order r).2 = Some (InvalidOptions err).
Proof.
  intros Hit Hres Hval Herr Hrest.
  apply (reaches_IsValid_error order r opt val); [done| |done].
  assert ((opt, val) ∈ order) as Hin
    by (by apply (iteration_lookup (options r) order)).
  apply list_elem_of_split in Hin as (pre & post & ->).
  exists pre, post. split; [done|].
  apply Forall_forall. intros [k v] Hkv.
  assert (options r !! k = Some v) as Hk.
  { apply (iteration_lookup (options r) (pre ++ (opt, val) :: post)%list);
      [done|]. apply elem_of_app. by left. }
  apply Hrest; [done|]. intros ->.
  pose proof (iteration_NoDup _ _ Hit) as Hnd.
  rewrite fmap_app in Hnd. apply NoDup_app in Hnd as (_ & Hdisj & _).
  apply (Hdisj opt).
  - apply list_elem_of_fmap. by exists (opt, v).
  - simpl. left.
Qed.

(** X9. Binding a key outside fmt, up, rv, rn, cn and tpl, be it fn or a
    key the loop does not know, changes neither whether [IsValid] accepts nor
    what it caches. *)
Theorem IsValid_untyped_key order order' r opt val :
  opt ∉ [OptionFormat; OptionUpdate; OptionRevoke; OptionRenewal;
         OptionCommonName; OptionTemplatePath] →
  iteration_of (options r) order →
  iteration_of (<[opt:=val]> (options r)) order' →
  ((IsValid order' (with_options (<[opt:=val]> (options r)) r)).2 = None
   ↔ (IsValid order r).2 = None)
  ∧ ∀ r1 r2,
      IsValid order r = (r1, None) →
      IsValid order' (with_options (<[opt:=val]> (options r)) r) = (r2, None) →
      r2 = with_options (<[opt:=val]> (options r)) r1.
Proof.
  intros Hopt Hit Hit'.
  repeat (apply not_elem_of_cons in Hopt as [? Hopt]).
  split.
  - rewrite (accepts_lookup_iff order r Hit).
    rewrite (accepts_lookup_iff order' (with_options _ r)) by done.
    simpl. by rewrite !lookup_insert_ne by done.
  - intros r1 r2 Hrun Hrun'.
    apply (IsValid_ok_cached order) in Hrun; [|done].
    apply (IsValid_ok_cached order') in Hrun'; [|done]. subst.
    unfold cached, with_options. simpl.
    by rewrite !lookup_insert_ne by done.
Qed.

(** ** The strings that name a descriptor *)

Lemma occurs_app c a b : occurs c (a ++ String c b) = true.
Proof.
  induction a as [|x a IH]; simpl.
  - by rewrite decide_True.
  - by destruct (decide (x = c)).
Qed.

(** Two strings that split at their last [c] the same way. *)
Lemma split_last c : ∀ n1 n2 s1 s2,
  occurs c s1 = false → occurs c s2 = false →
  n1 ++ String c s1 = n2 ++ String c s2 → n1 = n2 ∧ s1 = s2.
Proof.
  induction n1 as [|a n1 IH]; intros [|b n2] s1 s2 H1 H2; simpl.
  - by intros [= ->].
  - intros [= <- ->]. by rewrite occurs_app in H1.
  - intros [= -> <-]. by rewrite occurs_app in H2.
  - intros [= -> Heq]. by destruct (IH n2 s1 s2 H1 H2 Heq) as [-> ->].
Qed.

(** Two strings that split at their first [c] the same way. *)
Lemma split_first c : ∀ r1 r2 n1 n2,
  occurs c r1 = false → occurs c r2 = false →
  r1 ++ String c n1 = r2 ++ String c n2 → r1 = r2 ∧ n1 = n2.
Proof.
  induction r1 as [|a r1 IH]; intros [|b r2] n1 n2; simpl.
  - by intros _ _ [= ->].
  - intros _ H2 [= <- _]. by rewrite decide_True in H2.
  - intros H1 _ [= -> _]. by rewrite decide_True in H1.
  - destruct (decide (a = c)); [done|]. destruct (decide (b = c)); [done|].
    intros H1 H2 [= -> Heq]. by destruct (IH r2 n1 n2 H1 H2 Heq) as [-> ->].
Qed.

(** No supported resource type has a dot or a slash in it. *)
Lemma validResources_plain res :
  res ∈ ["pki"; "aws"; "secret"; "mysql"; "tpl"; "postgres"; "cassandra"] →
  occurs "."%char res = false ∧ occurs "/"%char res = false.
Proof.
  intros Hin.
  repeat (apply elem_of_cons in Hin as [->|Hin]; [by split|]).
  by apply elem_of_nil in Hin.
Qed.

(** X10. Default filenames do not collide: two descriptors of supported
    types without the fn option get the same filename from [GetFilename]
    only if they have the same name and the same resource type. *)
Theorem GetFilename_injective r1 r2 :
  resource r1 ∈ ["pki"; "aws"; "secret"; "mysql"; "tpl"; "postgres";
                 "cassandra"] →
  resource r2 ∈ ["pki"; "aws"; "secret"; "mysql"; "tpl"; "postgres";
                 "cassandra"] →
  options r1 !! OptionFilename = None →
  options r2 !! OptionFilename = None →
  GetFilename r1 = GetFilename r2 →
  name r1 = name r2 ∧ resource r1 = resource r2.
Proof.
  intros [Hd1 _]%validResources_plain [Hd2 _]%validResources_plain Hf1 Hf2.
  unfold GetFilename. rewrite Hf1, Hf2. simpl. by apply split_last.
Qed.

(** X11. The string that [String] gives identifies a descriptor of a
    supported type: two such descriptors with the same string have the same
    resource type and the same name. *)
Theorem String_injective r1 r2 :
  resource r1 ∈ ["pki"; "aws"; "secret"; "mysql"; "tpl"; "postgres";
                 "cassandra"] →
  resource r2 ∈ ["pki"; "aws"; "secret"; "mysql"; "tpl"; "postgres";
                 "cassandra"] →
  String_ r1 = String_ r2 →
  resource r1 = resource r2 ∧ name r1 = name r2.
Proof.
  intros [_ Hs1]%validResources_plain [_ Hs2]%validResources_plain.
  unfold String_. simpl. by apply split_first.
Qed.

End Properties.

(** ** The environment *)

(** The case of an entry of the table consults the parsers and the
    filesystem for the value of that entry only. *)
Lemma option_case_environment
    (PD1 PD2 : string → option Duration) (PB1 PB2 : string → option bool)
    (fe1 fe2 : string → bool) opt val r :
  (opt = OptionUpdate → PD1 val = PD2 val) →
  (opt = OptionRevoke → PB1 val = PB2 val) →
  (opt = OptionRenewal → PB1 val = PB2 val) →
  (opt = OptionTemplatePath → fe1 val = fe2 val) →
  option_case PD1 PB1 fe1 opt val r = option_case PD2 PB2 fe2 opt val r.
Proof.
  intros Hu Hv Hn Ht. unfold option_case.
  repeat case_decide; try done.
  - by rewrite Hu.
  - by rewrite Hv.
  - by rewrite Hn.
  - by rewrite Ht.
Qed.

Lemma isValidOptions_environment
    (PD1 PD2 : string → option Duration) (PB1 PB2 : string → option bool)
    (fe1 fe2 : string → bool) (m : gmap string string) order :
  (∀ val, m !! OptionUpdate = Some val → PD1 val = PD2 val) →
  (∀ val, m !! OptionRevoke = Some val → PB1 val = PB2 val) →
  (∀ val, m !! OptionRenewal = Some val → PB1 val = PB2 val) →
  (∀ val, m !! OptionTemplatePath = Some val → fe1 val = fe2 val) →
  (∀ opt val, (opt, val) ∈ order → m !! opt = Some val) →
  ∀ r, isValidOptions PD1 PB1 fe1 order r = isValidOptions PD2 PB2 fe2 order r.
Proof.
  intros Hu Hv Hn Ht.
  induction order as [|[opt val] rest IH]; intros Hin r; simpl; [done|].
  assert (m !! opt = Some val) as Hval by (apply Hin; left).
  rewrite (option_case_environment PD1 PD2 PB1 PB2 fe1 fe2 opt val r);
    [|intros ->; auto..].
  destruct (option_case PD2 PB2 fe2 opt val r) as [r1 [err|]]; [done|].
  apply IH. intros k v Hkv. apply Hin. by right.
Qed.

(** X12. [IsValid] consults [ParseDuration], [ParseBool] and the filesystem
    only for the values bound to up, to rv and rn, and to tpl: two
    environments that agree on those values give the same result, and a
    descriptor without these keys is validated without any of the three. *)
Theorem IsValid_environment
    (PD1 PD2 : string → option Duration) (PB1 PB2 : string → option bool)
    (fe1 fe2 : string → bool) order r :
  iteration_of (options r) order →
  (∀ val, options r !! OptionUpdate = Some val → PD1 val = PD2 val) →
  (∀ val, options r !! OptionRevoke = Some val → PB1 val = PB2 val) →
  (∀ val, options r !! OptionRenewal = Some val → PB1 val = PB2 val) →
  (∀ val, options r !! OptionTemplatePath = Some val → fe1 val = fe2 val) →
  IsValid PD1 PB1 fe1 order r = IsValid PD2 PB2 fe2 order r.
Proof.
  intros Hit Hu Hv Hn Ht. unfold IsValid.
  rewrite (isValidOptions_environment PD1 PD2 PB1 PB2 fe1 fe2 (options r));
    try done.
  intros opt val. by apply iteration_lookup.
Qed.

(** * Examples *)

(** Closes [iteration_of] goals on the descriptors of [Sample]. *)
Ltac iteration :=
  unfold iteration_of; vm_compute;
  first [reflexivity | apply perm_swap].

(** Closes goals that the options of a descriptor of [Sample], one key
    apart, all pass. *)
Ltac others_pass :=
  intros ? ? Hin%elem_of_map_to_list Hne;
  match type of Hin with
  | _ ∈ ?l =>
      let l' := eval vm_compute in l in
      replace l with l' in Hin by (vm_compute; reflexivity)
  end;
  repeat (apply elem_of_cons in Hin as [[= -> ->]|Hin];
          [first [by destruct Hne | vm_compute; reflexivity]|]);
  by apply elem_of_nil in Hin.

(** The descriptor secret/db-pass with fmt=json and up=2h is valid under
    both visiting orders, with format json, update two hours and the default
    filename db-pass.secret. *)
Example secret_json_valid :
  Sample.IsValid [("up", "2h"); ("fmt", "json")] Sample.secret_json
  = (set_update (2 * Sample.Hour)%Z (set_format "json" Sample.secret_json),
     None)
  ∧ Sample.IsValid [("fmt", "json"); ("up", "2h")] Sample.secret_json
    = (set_update (2 * Sample.Hour)%Z (set_format "json" Sample.secret_json),
       None)
  ∧ GetFilename Sample.secret_json = "db-pass.secret"
  ∧ String_ Sample.secret_json = "secret/db-pass".
Proof. repeat split. Qed.

(** The messages of the three kinds of error of [IsValid]. *)
Example error_messages :
  ValidateError_Error (UnsupportedResourceType "ssh")
  = "unsupported resource type: ssh"
  ∧ ValidateError_Error (InvalidOptions (InvalidFormat "xml"))
    = "invalid resource options, unsupported output format: xml"
  ∧ ValidateError_Error (InvalidOptions (InvalidBoolean OptionRevoke "maybe"))
    = "invalid resource options, the revoke option: maybe is invalid, should be a boolean"
  ∧ ValidateError_Error
      (InvalidResource "pki/web" (MissingRequiredOption "pki" "cn"))
    = "invalid resource: pki/web, pki resource requires a common name specified".
Proof. repeat split. Qed.

(** ** C1 *)

Lemma IsValid_resource_type_witness :
  Sample.IsValid [("fmt", "xml")] Sample.ssh_xml
  = (Sample.ssh_xml, Some (UnsupportedResourceType "ssh"))
  ∧ ∀ res, (Sample.IsValid [] Sample.pki_bare).2
           ≠ Some (UnsupportedResourceType res).
Proof.
  split.
  - apply (IsValid_resource_type Sample.ParseDuration Sample.ParseBool
             Sample.fileExists [("fmt", "xml")] Sample.ssh_xml).
    compute_done.
  - apply (IsValid_resource_type Sample.ParseDuration Sample.ParseBool
             Sample.fileExists [] Sample.pki_bare).
    compute_done.
Defined.

(** ** C6 *)

Lemma GetFilename_spec_witness :
  GetFilename Sample.secret_fn_empty = ""
  ∧ GetFilename Sample.ssh_fn_path = "../keys/id_rsa"
  ∧ GetFilename Sample.secret_json = "db-pass.secret".
Proof.
  split; [|split].
  - by apply (GetFilename_spec Sample.secret_fn_empty).
  - by apply (GetFilename_spec Sample.ssh_fn_path).
  - by apply (GetFilename_spec Sample.secret_json).
Defined.

(** ** C4 *)

Lemma isValidResource_required_witness :
  Sample.IsValid [] Sample.pki_bare
  = (Sample.pki_bare,
     Some (InvalidResource "pki/web" (MissingRequiredOption "pki" "cn"))).
Proof.
  apply (isValidResource_required Sample.ParseDuration Sample.ParseBool
           Sample.fileExists [] Sample.pki_bare Sample.pki_bare);
    [by eexists | reflexivity | reflexivity | reflexivity].
Defined.

(** ** C7 *)

Lemma IsValid_idempotent_witness :
  Sample.IsValid [("fmt", "json"); ("up", "2h")]
    (set_update (2 * Sample.Hour)%Z (set_format "json" Sample.secret_json))
  = (set_update (2 * Sample.Hour)%Z (set_format "json" Sample.secret_json),
     None).
Proof.
  apply (IsValid_idempotent Sample.ParseDuration Sample.ParseBool
           Sample.fileExists
           [("up", "2h"); ("fmt", "json")] [("fmt", "json"); ("up", "2h")]
           Sample.secret_json);
    [iteration | iteration | vm_compute; reflexivity].
Defined.

(** ** C10 *)

Lemma pki_common_name_unchecked_witness :
  Sample.option_case OptionCommonName "" Sample.pki_empty_cn
  = (Sample.pki_empty_cn, None)
  ∧ isValidResource Sample.pki_empty_cn = None
  ∧ Sample.IsValid [("fmt", "json"); ("cn", "")] Sample.pki_empty_cn
    = (cached Sample.ParseDuration Sample.ParseBool Sample.pki_empty_cn, None).
Proof.
  apply (pki_common_name_unchecked Sample.ParseDuration Sample.ParseBool
           Sample.fileExists [("fmt", "json"); ("cn", "")]
           Sample.pki_empty_cn "");
    [reflexivity | reflexivity | iteration | others_pass].
Defined.

(** ** C9 *)

(** With an unsupported resource type, an option that does not pass is
    never what [IsValid] reports. *)
Lemma IsValid_order_counterexample :
  iteration_of (options Sample.ssh_abc) [("up", "abc")]
  ∧ options Sample.ssh_abc !! OptionUpdate = Some "abc"
  ∧ (Sample.option_case OptionUpdate "abc" Sample.ssh_abc).2
    = Some (InvalidDuration "abc")
  ∧ Sample.IsValid [("up", "abc")] Sample.ssh_abc
    = (Sample.ssh_abc, Some (UnsupportedResourceType "ssh"))
  ∧ ∀ err, (Sample.IsValid [("up", "abc")] Sample.ssh_abc).2
           ≠ Some (InvalidOptions err).
Proof.
  split; [iteration|]. repeat split. by intros err.
Qed.

Lemma IsValid_order_independent_witness :
  (∃ opt val err,
     options Sample.secret_xml_abc !! opt = Some val
     ∧ (Sample.option_case opt val Sample.secret_xml_abc).2 = Some err
     ∧ (Sample.IsValid [("fmt", "xml"); ("up", "abc")] Sample.secret_xml_abc).2
       = Some (InvalidOptions err))
  ∧ Sample.IsValid [("fmt", "json"); ("up", "2h")] Sample.secret_json
    = Sample.IsValid [("up", "2h"); ("fmt", "json")] Sample.secret_json.
Proof.
  split.
  - apply (IsValid_order_independent Sample.ParseDuration Sample.ParseBool
             Sample.fileExists [("fmt", "xml"); ("up", "abc")]
             [("up", "abc"); ("fmt", "xml")] Sample.secret_xml_abc);
      [iteration | iteration | by eexists |].
    exists OptionUpdate, "abc". split; [reflexivity | by intros [=]].
  - apply (IsValid_order_independent Sample.ParseDuration Sample.ParseBool
             Sample.fileExists [("fmt", "json"); ("up", "2h")]
             [("up", "2h"); ("fmt", "json")] Sample.secret_json);
      [iteration | iteration | reflexivity].
Defined.

(** ** C2 *)

(** A fmt value outside the enumeration and an error that is not
    [InvalidFormat]: the resource type check comes first, and so does an
    earlier entry that does not pass; a fmt value of the enumeration is not
    cached when the loop stops before its entry. *)
Lemma fmt_option_counterexample :
  (options Sample.ssh_xml !! OptionFormat = Some "xml"
   ∧ iteration_of (options Sample.ssh_xml) [("fmt", "xml")]
   ∧ Sample.IsValid [("fmt", "xml")] Sample.ssh_xml
     = (Sample.ssh_xml, Some (UnsupportedResourceType "ssh")))
  ∧ (options Sample.secret_xml_abc !! OptionFormat = Some "xml"
     ∧ iteration_of (options Sample.secret_xml_abc)
         [("up", "abc"); ("fmt", "xml")]
     ∧ Sample.IsValid [("up", "abc"); ("fmt", "xml")] Sample.secret_xml_abc
       = (Sample.secret_xml_abc,
          Some (InvalidOptions (InvalidDuration "abc"))))
  ∧ (options Sample.secret_json_abc !! OptionFormat = Some "json"
     ∧ iteration_of (options Sample.secret_json_abc)
         [("up", "abc"); ("fmt", "json")]
     ∧ format (Sample.IsValid [("up", "abc"); ("fmt", "json")]
                 Sample.secret_json_abc).1 = "yaml").
Proof.
  repeat split; iteration.
Qed.

Lemma fmt_option_witness :
  (Sample.IsValid [("fmt", "xml"); ("up", "abc")] Sample.secret_xml_abc).2
  = Some (InvalidOptions (InvalidFormat "xml"))
  ∧ format (Sample.IsValid [("up", "2h"); ("fmt", "json")]
              Sample.secret_json).1 = "json".
Proof.
  split.
  - destruct (fmt_option Sample.ParseDuration Sample.ParseBool
                Sample.fileExists [("fmt", "xml"); ("up", "abc")]
                Sample.secret_xml_abc) as [H _]; [iteration|].
    destruct (H "xml" eq_refl) as [Hbad _].
    destruct Hbad as (_ & _ & Herr); [compute_done|].
    apply Herr; [by eexists|].
    exists [], [("up", "abc")]. by split.
  - destruct (fmt_option Sample.ParseDuration Sample.ParseBool
                Sample.fileExists [("up", "2h"); ("fmt", "json")]
                Sample.secret_json) as [H _]; [iteration|].
    destruct (H "json" eq_refl) as [_ Hgood].
    destruct Hgood as (_ & Hreached & _); [compute_done|].
    apply Hreached; [by eexists|].
    exists [("up", "2h")], []. split; [reflexivity|].
    constructor; [reflexivity | constructor].
Defined.

(** ** C3 *)

(** An up value that does not parse and an error that is not
    [InvalidDuration], a rn value that parses and is not cached. *)
Lemma typed_options_counterexample :
  (options Sample.ssh_abc !! OptionUpdate = Some "abc"
   ∧ Sample.ParseDuration "abc" = None
   ∧ iteration_of (options Sample.ssh_abc) [("up", "abc")]
   ∧ Sample.IsValid [("up", "abc")] Sample.ssh_abc
     = (Sample.ssh_abc, Some (UnsupportedResourceType "ssh")))
  ∧ (options Sample.secret_xml_abc !! OptionUpdate = Some "abc"
     ∧ iteration_of (options Sample.secret_xml_abc)
         [("fmt", "xml"); ("up", "abc")]
     ∧ Sample.IsValid [("fmt", "xml"); ("up", "abc")] Sample.secret_xml_abc
       = (Sample.secret_xml_abc,
          Some (InvalidOptions (InvalidFormat "xml"))))
  ∧ (Sample.ParseBool "true" = Some true
     ∧ iteration_of
         (options (Sample.descriptor "ssh" "key" [("rn", "true")]))
         [("rn", "true")]
     ∧ renewable
         (Sample.IsValid [("rn", "true")]
            (Sample.descriptor "ssh" "key" [("rn", "true")])).1 = false).
Proof.
  repeat split; iteration.
Qed.

Lemma typed_options_witness :
  update (Sample.IsValid [("up", "2h"); ("fmt", "json")]
            Sample.secret_json).1 = (2 * Sample.Hour)%Z
  ∧ (Sample.IsValid [("up", "abc"); ("fmt", "json")] Sample.secret_json_abc).2
    = Some (InvalidOptions (InvalidDuration "abc"))
  ∧ renewable (Sample.IsValid [("rn", "true"); ("rv", "T")]
                 Sample.secret_flags).1 = true
  ∧ revoked (Sample.IsValid [("rn", "true"); ("rv", "T")]
               Sample.secret_flags).1 = true.
Proof.
  split; [|split; [|split]].
  - destruct (typed_options Sample.ParseDuration Sample.ParseBool
                Sample.fileExists [("up", "2h"); ("fmt", "json")]
                Sample.secret_json) as [H _]; [iteration|].
    destruct (H "2h" eq_refl) as [Hgood _].
    destruct (Hgood (2 * Sample.Hour)%Z eq_refl) as (_ & Hreached & _).
    apply Hreached; [by eexists|].
    exists [], [("fmt", "json")]. by split.
  - destruct (typed_options Sample.ParseDuration Sample.ParseBool
                Sample.fileExists [("up", "abc"); ("fmt", "json")]
                Sample.secret_json_abc) as [H _]; [iteration|].
    destruct (H "abc" eq_refl) as [_ Hbad].
    destruct (Hbad eq_refl) as (_ & _ & Herr).
    apply Herr; [by eexists|].
    exists [], [("fmt", "json")]. by split.
  - destruct (typed_options Sample.ParseDuration Sample.ParseBool
                Sample.fileExists [("rn", "true"); ("rv", "T")]
                Sample.secret_flags) as (_ & H & _); [iteration|].
    destruct (H "true" eq_refl) as [Hgood _].
    destruct (Hgood true eq_refl) as (_ & Hreached & _).
    apply Hreached; [by eexists|].
    exists [], [("rv", "T")]. by split.
  - destruct (typed_options Sample.ParseDuration Sample.ParseBool
                Sample.fileExists [("rn", "true"); ("rv", "T")]
                Sample.secret_flags) as (_ & _ & H); [iteration|].
    destruct (H "T" eq_refl) as [Hgood _].
    destruct (Hgood true eq_refl) as (_ & Hreached & _).
    apply Hreached; [by eexists|].
    exists [("rn", "true")], []. split; [reflexivity|].
    constructor; [reflexivity | constructor].
Defined.

(** ** C5 *)

(** A template path that is not there and an error that is not
    [TemplateNotFound]. *)
Lemma tpl_option_counterexample :
  (options Sample.ssh_tpl !! OptionTemplatePath = Some "/tmp/missing.tpl"
   ∧ Sample.fileExists "/tmp/missing.tpl" = false
   ∧ iteration_of (options Sample.ssh_tpl) [("tpl", "/tmp/missing.tpl")]
   ∧ Sample.IsValid [("tpl", "/tmp/missing.tpl")] Sample.ssh_tpl
     = (Sample.ssh_tpl, Some (UnsupportedResourceType "ssh")))
  ∧ (options Sample.tpl_missing_xml !! OptionTemplatePath
     = Some "/tmp/missing.tpl"
     ∧ iteration_of (options Sample.tpl_missing_xml)
         [("fmt", "xml"); ("tpl", "/tmp/missing.tpl")]
     ∧ Sample.IsValid [("fmt", "xml"); ("tpl", "/tmp/missing.tpl")]
         Sample.tpl_missing_xml
       = (Sample.tpl_missing_xml,
          Some (InvalidOptions (InvalidFormat "xml")))).
Proof.
  repeat split; iteration.
Qed.

Lemma tpl_option_witness :
  (Sample.IsValid [("tpl", "/tmp/missing.tpl"); ("fmt", "xml")]
     Sample.tpl_missing_xml).2
  = Some (InvalidOptions (TemplateNotFound "/tmp/missing.tpl"))
  ∧ Sample.IsValid [("tpl", "/etc/vault/nginx.tpl")] Sample.tpl_found
    = (cached Sample.ParseDuration Sample.ParseBool Sample.tpl_found, None).
Proof.
  split.
  - destruct (tpl_option Sample.ParseDuration Sample.ParseBool
                Sample.fileExists
                [("tpl", "/tmp/missing.tpl"); ("fmt", "xml")]
                Sample.tpl_missing_xml "/tmp/missing.tpl") as [Hbad _];
      [iteration | reflexivity |].
    destruct (Hbad eq_refl) as (_ & _ & Herr).
    apply Herr; [by eexists|].
    exists [], [("fmt", "xml")]. by split.
  - destruct (tpl_option Sample.ParseDuration Sample.ParseBool
                Sample.fileExists [("tpl", "/etc/vault/nginx.tpl")]
                Sample.tpl_found "/etc/vault/nginx.tpl") as [_ Hgood];
      [iteration | reflexivity |].
    destruct (Hgood eq_refl) as [_ Hacc].
    apply Hacc; [reflexivity | others_pass].
Defined.

(** ** C8 *)

(** A pki descriptor without the cn key is rejected after the loop has
    assigned format. *)
Lemma IsValid_failure_counterexample :
  iteration_of (options Sample.pki_json) [("fmt", "json")]
  ∧ format Sample.pki_json = "yaml"
  ∧ Sample.IsValid [("fmt", "json")] Sample.pki_json
    = (set_format "json" Sample.pki_json,
       Some (InvalidResource "pki/web" (MissingRequiredOption "pki" "cn")))
  ∧ format (Sample.IsValid [("fmt", "json")] Sample.pki_json).1
    ≠ format Sample.pki_json.
Proof.
  split; [iteration|]. repeat split. by intros [=].
Qed.

Lemma IsValid_failure_witness :
  options (set_format "json" Sample.pki_json) = options Sample.pki_json
  ∧ (format (set_format "json" Sample.pki_json) = format Sample.pki_json
     ∨ options Sample.pki_json !! OptionFormat
       = Some (format (set_format "json" Sample.pki_json)))
  ∧ (update (set_format "json" Sample.pki_json) = update Sample.pki_json
     ∨ ∃ val, options Sample.pki_json !! OptionUpdate = Some val
              ∧ Sample.ParseDuration val
                = Some (update (set_format "json" Sample.pki_json))).
Proof.
  destruct (IsValid_failure Sample.ParseDuration Sample.ParseBool
              Sample.fileExists [("fmt", "json")] Sample.pki_json
              (set_format "json" Sample.pki_json)
              (InvalidResource "pki/web" (MissingRequiredOption "pki" "cn")))
    as (_ & Ho & _ & _ & Hf & Hu & _); [iteration | reflexivity |].
  split; [exact Ho|]. split; [exact Hf | exact Hu].
Defined.

(** ** Further properties *)

Lemma IsValid_accepts_iff_witness :
  (Sample.IsValid [("up", "2h"); ("fmt", "json")] Sample.secret_json).2 = None.
Proof.
  apply (IsValid_accepts_iff Sample.ParseDuration Sample.ParseBool
           Sample.fileExists [("up", "2h"); ("fmt", "json")]
           Sample.secret_json); [iteration|].
  split; [compute_done|].
  split; [intros val [= <-]; compute_done|].
  split; [intros val [= <-]; by eexists|].
  repeat (split; [by intros val [=]|]).
  split; by intros [=].
Defined.

Lemma IsValid_option_error_sound_witness :
  options Sample.secret_xml_abc !! OptionFormat = Some "xml"
  ∧ "xml" ∉ ["yaml"; "json"; "ini"; "txt"; "cert"; "csv"].
Proof.
  apply (IsValid_option_error_sound Sample.ParseDuration Sample.ParseBool
           Sample.fileExists [("fmt", "xml"); ("up", "abc")]
           Sample.secret_xml_abc (InvalidFormat "xml"));
    [iteration | reflexivity].
Defined.

Lemma IsValid_absent_keys_witness :
  update (Sample.IsValid [("fmt", "json")] Sample.pki_json).1
  = update Sample.pki_json
  ∧ revoked (Sample.IsValid [("fmt", "json")] Sample.pki_json).1
    = revoked Sample.pki_json
  ∧ renewable (Sample.IsValid [("fmt", "json")] Sample.pki_json).1
    = renewable Sample.pki_json.
Proof.
  destruct (IsValid_absent_keys Sample.ParseDuration Sample.ParseBool
              Sample.fileExists [("fmt", "json")] Sample.pki_json)
    as (Hu & Hv & Hn); [iteration|].
  split; [by apply Hu|]. split; [by apply Hv | by apply Hn].
Defined.

Lemma IsValid_no_options_witness :
  (Sample.IsValid [] (Sample.descriptor "aws" "deploy" [])).1
  = Sample.descriptor "aws" "deploy" []
  ∧ (Sample.IsValid [] (Sample.descriptor "aws" "deploy" [])).2 = None
  ∧ (Sample.IsValid [] Sample.pki_bare).2
    = Some (InvalidResource "pki/web" (MissingRequiredOption "pki" "cn")).
Proof.
  split; [|split].
  - apply (IsValid_no_options Sample.ParseDuration Sample.ParseBool
             Sample.fileExists [] (Sample.descriptor "aws" "deploy" []));
      [reflexivity | iteration].
  - apply (IsValid_no_options Sample.ParseDuration Sample.ParseBool
             Sample.fileExists [] (Sample.descriptor "aws" "deploy" []));
      [reflexivity | iteration | compute_done].
  - apply (IsValid_no_options Sample.ParseDuration Sample.ParseBool
             Sample.fileExists [] Sample.pki_bare);
      [reflexivity | iteration | reflexivity].
Defined.

Lemma IsValid_format_invariant_witness :
  format (Sample.IsValid [("up", "abc"); ("fmt", "json")]
            Sample.secret_json_abc).1
  ∈ ["yaml"; "json"; "ini"; "txt"; "cert"; "csv"].
Proof.
  apply (IsValid_format_invariant Sample.ParseDuration Sample.ParseBool
           Sample.fileExists [("up", "abc"); ("fmt", "json")]
           Sample.secret_json_abc); [iteration | compute_done].
Defined.

Lemma IsValid_single_invalid_witness :
  (Sample.IsValid [("fmt", "json"); ("up", "abc")] Sample.secret_json_abc).2
  = Some (InvalidOptions (InvalidDuration "abc")).
Proof.
  apply (IsValid_single_invalid Sample.ParseDuration Sample.ParseBool
           Sample.fileExists [("fmt", "json"); ("up", "abc")]
           Sample.secret_json_abc OptionUpdate "abc");
    [iteration | by eexists | reflexivity | reflexivity | others_pass].
Defined.

Lemma IsValid_untyped_key_witness :
  (Sample.IsValid [("ttl", "1h")]
     (with_options
        (<["ttl":="1h"]> (options (Sample.descriptor "aws" "deploy" [])))
        (Sample.descriptor "aws" "deploy" []))).2 = None
  ↔ (Sample.IsValid [] (Sample.descriptor "aws" "deploy" [])).2 = None.
Proof.
  apply (IsValid_untyped_key Sample.ParseDuration Sample.ParseBool
           Sample.fileExists [] [("ttl", "1h")]
           (Sample.descriptor "aws" "deploy" []) "ttl" "1h");
    [compute_done | iteration | iteration].
Defined.

Lemma GetFilename_injective_witness :
  name Sample.secret_json = name Sample.secret_json_abc
  ∧ resource Sample.secret_json = resource Sample.secret_json_abc.
Proof.
  apply (GetFilename_injective Sample.secret_json Sample.secret_json_abc);
    [compute_done | compute_done | reflexivity | reflexivity | reflexivity].
Defined.

Lemma String_injective_witness :
  resource Sample.pki_bare = resource Sample.pki_json
  ∧ name Sample.pki_bare = name Sample.pki_json.
Proof.
  apply (String_injective Sample.pki_bare Sample.pki_json);
    [compute_done | compute_done | reflexivity].
Defined.

Lemma IsValid_environment_witness :
  IsValid Sample.ParseDuration Sample.ParseBool Sample.fileExists
    [("up", "2h"); ("fmt", "json")] Sample.secret_json
  = IsValid Sample.ParseDuration (λ _, None) (λ _, false)
      [("up", "2h"); ("fmt", "json")] Sample.secret_json.
Proof.
  apply (IsValid_environment Sample.ParseDuration Sample.ParseDuration
           Sample.ParseBool (λ _, None) Sample.fileExists (λ _, false)
           [("up", "2h"); ("fmt", "json")] Sample.secret_json);
    [iteration | done | by intros val [=] ..].
Defined.
